(** * NachOS three-level CPU scheduler: code/threads/scheduler.cc

    A shallow embedding of the scheduler of the NachOS kernel
    (SJF queue L1, priority queue L2, FIFO queue L3) together with the
    properties its specification states about it.

    Thread objects live in a store indexed by thread pointers; the ready
    queues hold pointers, exactly as the C++ lists hold [Thread *].  Each
    member function of [Scheduler] is a computation in a small state and
    failure monad over the kernel state. *)

From Stdlib Require Import ZArith Lia.
From stdpp Require Import base option list gmap.

Local Open Scope Z_scope.

(** ** Threads *)

(** Modelled from the spec: the status values of an execution unit
    (thread.h is not part of the sources): READY, RUNNING, BLOCKED,
    FINISHED. *)
Inductive ThreadStatus := READY | RUNNING | BLOCKED | FINISHED.

(** The two interrupt levels queried by [kernel->interrupt->getLevel()]. *)
Inductive IntStatus := IntOff | IntOn.

Global Instance ThreadStatus_eq_dec : EqDecision ThreadStatus.
Proof. solve_decision. Defined.

Global Instance IntStatus_eq_dec : EqDecision IntStatus.
Proof. solve_decision. Defined.

(** A [Thread *] that is not NULL.  Nullable pointers are [option]s. *)
Abbreviation ThreadPtr := nat (only parsing).
Abbreviation AddrSpacePtr := nat (only parsing).

(** Modelled from the spec: the attributes of an execution unit read and
    written by the scheduler (thread.h is not part of the sources): the
    priority value, the status, the consumed time ([getBurstTime]), the
    estimated total time ([getApproxBurstTime]), the start-time marker and
    the optional address space.  Times and priorities are integers. *)
Record Thread := mkThread {
  priority : Z;
  status : ThreadStatus;
  burstTime : Z;
  approxBurstTime : Z;
  startTime : Z;
  space : option AddrSpacePtr
}.

(** [thread->setStatus(st)] *)
Definition setStatus (st : ThreadStatus) (t : Thread) : Thread :=
  {| priority := priority t; status := st; burstTime := burstTime t;
     approxBurstTime := approxBurstTime t; startTime := startTime t;
     space := space t |}.

(** ** External collaborators

    The operations of [Thread], [AddrSpace] and of the machine that the
    scheduler calls but does not define.  They are taken as an interface;
    every result below holds for each implementation of it. *)
Class Collaborators := {
  (** registers, page tables, the tick counter: whatever the hooks use *)
  Machine : Type;
  (** [Thread::SaveUserState]: copy the machine registers into the thread *)
  SaveUserState : Machine → Thread → Thread;
  (** [AddrSpace::SaveState] *)
  SaveState : AddrSpacePtr → Machine → Machine;
  (** [Thread::RestoreUserState]: load the machine registers *)
  RestoreUserState : Thread → Machine → Machine;
  (** [AddrSpace::RestoreState] *)
  RestoreState : AddrSpacePtr → Machine → Machine;
  (** [Thread::CheckOverflow]: [false] when its assertion on the stack fails *)
  CheckOverflow : Thread → bool;
  (** [Thread::setStartTime] *)
  setStartTime : Machine → Thread → Thread;
  (** [Thread::aging]: the priority growth owned by the thread *)
  Thread_aging : Machine → Thread → Thread
}.

Section State.
Context `{Ext : Collaborators}.

(** ** Kernel state

    The members of [Scheduler] ([L1], [L2], [L3], [toBeDestroyed]), the
    parts of [kernel] the scheduler uses ([currentThread], the interrupt
    level), the store of live thread objects and the machine. *)
Record Kernel := mkKernel {
  L1 : list ThreadPtr;
  L2 : list ThreadPtr;
  L3 : list ThreadPtr;
  toBeDestroyed : option ThreadPtr;
  currentThread : ThreadPtr;
  level : IntStatus;
  threads : gmap nat Thread;
  machine : Machine
}.

Definition set_L1 (l : list ThreadPtr) (k : Kernel) : Kernel :=
  mkKernel l (L2 k) (L3 k) (toBeDestroyed k) (currentThread k) (level k)
           (threads k) (machine k).
Definition set_L2 (l : list ThreadPtr) (k : Kernel) : Kernel :=
  mkKernel (L1 k) l (L3 k) (toBeDestroyed k) (currentThread k) (level k)
           (threads k) (machine k).
Definition set_L3 (l : list ThreadPtr) (k : Kernel) : Kernel :=
  mkKernel (L1 k) (L2 k) l (toBeDestroyed k) (currentThread k) (level k)
           (threads k) (machine k).
Definition set_toBeDestroyed (d : option ThreadPtr) (k : Kernel) : Kernel :=
  mkKernel (L1 k) (L2 k) (L3 k) d (currentThread k) (level k)
           (threads k) (machine k).
Definition set_currentThread (p : ThreadPtr) (k : Kernel) : Kernel :=
  mkKernel (L1 k) (L2 k) (L3 k) (toBeDestroyed k) p (level k)
           (threads k) (machine k).
Definition set_threads (h : gmap nat Thread) (k : Kernel) : Kernel :=
  mkKernel (L1 k) (L2 k) (L3 k) (toBeDestroyed k) (currentThread k) (level k)
           h (machine k).
Definition set_machine (m : Machine) (k : Kernel) : Kernel :=
  mkKernel (L1 k) (L2 k) (L3 k) (toBeDestroyed k) (currentThread k) (level k)
           (threads k) m.

(** ** The monad of scheduler operations

    [Ret a k]: the call returns [a] in state [k].
    [Fatal k]: an [ASSERT] failed; [k] is the state at the abort.
    [Undefined]: a pointer without a live object was dereferenced. *)
Inductive Outcome (A : Type) :=
  | Ret (a : A) (k : Kernel)
  | Fatal (k : Kernel)
  | Undefined.
Global Arguments Ret {A} a k.
Global Arguments Fatal {A} k.
Global Arguments Undefined {A}.

Definition M (A : Type) : Type := Kernel → Outcome A.

Definition ret {A} (a : A) : M A := λ k, Ret a k.

Definition bind {A B} (m : M A) (f : A → M B) : M B :=
  λ k, match m k with
       | Ret a k' => f a k'
       | Fatal k' => Fatal k'
       | Undefined => Undefined
       end.

End State.

Notation "'do' x <- m ; f" := (bind m (λ x, f))
  (at level 10, x name, m at level 100, f at level 200,
   format "'[v' 'do'  x  <-  m ; '/' f ']'").
Notation "m ;; f" := (bind m (λ _, f))
  (at level 100, f at level 200, right associativity).

Section Scheduler.
Context `{Ext : Collaborators}.

Definition gets {A} (f : Kernel → A) : M A := λ k, Ret (f k) k.
Definition modify (f : Kernel → Kernel) : M unit := λ k, Ret tt (f k).

(** [ASSERT(cond)] of debug.h: abort when the condition is false. *)
Definition ASSERT (cond : Kernel → bool) : M unit :=
  λ k, if cond k then Ret tt k else Fatal k.

(** [ASSERTNOTREACHED()] *)
Definition ASSERTNOTREACHED : M unit := λ k, Fatal k.

(** [ASSERT(kernel->interrupt->getLevel() == IntOff)] *)
Definition interrupts_off (k : Kernel) : bool := bool_decide (level k = IntOff).

(** Lift a partial result: [None] is a dereference of a dead pointer. *)
Definition defined {A} (o : option A) : M A :=
  λ k, match o with Some a => Ret a k | None => Undefined end.

(** Read the object behind a thread pointer. *)
Definition deref (p : ThreadPtr) : M Thread :=
  λ k, match threads k !! p with Some t => Ret t k | None => Undefined end.

(** Call a mutator of the object behind a thread pointer. *)
Definition update (p : ThreadPtr) (f : Thread → Thread) : M unit :=
  λ k, match threads k !! p with
       | Some t => Ret tt (set_threads (<[p := f t]> (threads k)) k)
       | None => Undefined
       end.

(** ** Ordering policies *)

(** Remaining work of a thread: [getApproxBurstTime() - getBurstTime()]. *)
Definition remaining (t : Thread) : Z := approxBurstTime t - burstTime t.

(** [SJFCompare(a, b)] on thread objects. *)
Definition SJFCompare_obj (a b : Thread) : Z :=
  if bool_decide (approxBurstTime a - burstTime a = approxBurstTime b - burstTime b)
  then 0
  else if bool_decide (approxBurstTime a - burstTime a > approxBurstTime b - burstTime b)
       then 1 else -1.

(** [PriorityCompare(a, b)] on thread objects. *)
Definition PriorityCompare_obj (a b : Thread) : Z :=
  if bool_decide (priority a = priority b) then 0
  else if bool_decide (priority a > priority b) then 1 else -1.

(** The comparators take pointers and read both objects from the store. *)
Definition SJFCompare (h : gmap nat Thread) (a b : ThreadPtr) : option Z :=
  ta ← h !! a; tb ← h !! b; Some (SJFCompare_obj ta tb).

Definition PriorityCompare (h : gmap nat Thread) (a b : ThreadPtr) : option Z :=
  ta ← h !! a; tb ← h !! b; Some (PriorityCompare_obj ta tb).

(** [FIFOCompare]: defined in the source, used by no list. *)
Definition FIFOCompare (h : gmap nat Thread) (a b : ThreadPtr) : option Z :=
  Some 1.

(** ** The list library (lib/list.h is not part of the sources) *)

(** Modelled from the spec: [SortedList<T>::Insert] keeps the list in
    ascending order of the comparator and breaks ties by insertion order:
    the item goes behind every element that does not compare greater
    than it, that is, in front of the first element it is smaller than. *)
Fixpoint SortedList_Insert (compare : ThreadPtr → ThreadPtr → option Z)
    (item : ThreadPtr) (l : list ThreadPtr) : option (list ThreadPtr) :=
  match l with
  | [] => Some [item]
  | x :: l' =>
      c ← compare item x;
      if bool_decide (c < 0) then Some (item :: x :: l')
      else (x ::.) <$> SortedList_Insert compare item l'
  end.

(** Modelled from the spec: [List<T>::Append] puts the item at the end
    (the plain tier is strict append and remove-front). *)
Definition List_Append (item : ThreadPtr) (l : list ThreadPtr) : list ThreadPtr :=
  l ++ [item].

(** [L1->Insert(thread)], [L2->Insert(thread)], [L3->Append(thread)] *)
Definition L1_Insert (p : ThreadPtr) : M unit :=
  do k <- gets id;
  do l <- defined (SortedList_Insert (SJFCompare (threads k)) p (L1 k));
  modify (set_L1 l).

Definition L2_Insert (p : ThreadPtr) : M unit :=
  do k <- gets id;
  do l <- defined (SortedList_Insert (PriorityCompare (threads k)) p (L2 k));
  modify (set_L2 l).

Definition L3_Append (p : ThreadPtr) : M unit :=
  modify (λ k, set_L3 (List_Append p (L3 k)) k).

(** ** Scheduler::Scheduler *)
Definition Scheduler_init (cur : ThreadPtr) (lv : IntStatus)
    (h : gmap nat Thread) (m : Machine) : Kernel :=
  mkKernel [] [] [] None cur lv h m.

(** ** Scheduler::ReadyToRun *)
Definition ReadyToRun (thread : ThreadPtr) : M unit :=
  ASSERT interrupts_off ;;
  update thread (setStatus READY) ;;
  do t <- deref thread;
  let priority := priority t in
  if bool_decide (priority >= 100) && bool_decide (priority <= 149) then
    L1_Insert thread
  else if bool_decide (priority >= 50) && bool_decide (priority <= 99) then
    L2_Insert thread
  else if bool_decide (priority >= 0) && bool_decide (priority <= 49) then
    L3_Append thread
  else
    ASSERTNOTREACHED.

(** ** Scheduler::FindNextToRun

    [None] is the NULL result. *)
Definition FindNextToRun : M (option ThreadPtr) :=
  ASSERT interrupts_off ;;
  do k <- gets id;
  match L1 k with
  | thread :: rest => modify (set_L1 rest) ;; ret (Some thread)
  | [] =>
    match L2 k with
    | thread :: rest => modify (set_L2 rest) ;; ret (Some thread)
    | [] =>
      match L3 k with
      | thread :: rest => modify (set_L3 rest) ;; ret (Some thread)
      | [] => ret None
      end
    end
  end.

(** ** Scheduler::CheckToBeDestroyed

    [delete toBeDestroyed] ends the life of the thread object. *)
Definition delete_thread (p : ThreadPtr) : M unit :=
  λ k, match threads k !! p with
       | Some _ => Ret tt (set_threads (delete p (threads k)) k)
       | None => Undefined
       end.

Definition CheckToBeDestroyed : M unit :=
  do d <- gets toBeDestroyed;
  match d with
  | Some p => delete_thread p ;; modify (set_toBeDestroyed None)
  | None => ret tt
  end.

(** ** Scheduler::Run

    [SWITCH(oldThread, nextThread)] parks the calling stack; the rest of
    [Run] executes when a later dispatch switches back to [oldThread].
    [Run_dispatch] is the code in front of [SWITCH] and returns the local
    [oldThread]; [Run_resume] is the code behind it. *)
Definition Run_dispatch (nextThread : ThreadPtr) (finishing : bool) : M ThreadPtr :=
  do oldThread <- gets currentThread;
  ASSERT interrupts_off ;;
  (if finishing then
     ASSERT (λ k, bool_decide (toBeDestroyed k = None)) ;;
     modify (set_toBeDestroyed (Some oldThread))
   else ret tt) ;;
  (do old <- deref oldThread;
   match space old with
   | Some _ =>
       do m <- gets machine;
       update oldThread (SaveUserState m) ;;
       do old' <- deref oldThread;
       do sp <- defined (space old');
       modify (λ k, set_machine (SaveState sp (machine k)) k)
   | None => ret tt
   end) ;;
  (do old <- deref oldThread;
   ASSERT (λ _, CheckOverflow old)) ;;
  modify (set_currentThread nextThread) ;;
  update nextThread (setStatus RUNNING) ;;
  (do m <- gets machine;
   update nextThread (setStartTime m)) ;;
  ret oldThread.

Definition Run_resume (oldThread : ThreadPtr) : M unit :=
  ASSERT interrupts_off ;;
  CheckToBeDestroyed ;;
  do old <- deref oldThread;
  match space old with
  | Some _ =>
      modify (λ k, set_machine (RestoreUserState old (machine k)) k) ;;
      do old' <- deref oldThread;
      do sp <- defined (space old');
      modify (λ k, set_machine (RestoreState sp (machine k)) k)
  | None => ret tt
  end.

(** The whole of [Run], for a given behaviour of [SWITCH]: everything the
    other threads do until [oldThread] is switched back in. *)
Definition Run (SWITCH : ThreadPtr → ThreadPtr → M unit)
    (nextThread : ThreadPtr) (finishing : bool) : M unit :=
  do oldThread <- Run_dispatch nextThread finishing;
  SWITCH oldThread nextThread ;;
  Run_resume oldThread.

(** ** Scheduler::checkPreemptive *)
Definition checkPreemptive : M bool :=
  do k <- gets id;
  match L1 k with
  | first :: rest =>
      modify (set_L1 rest) ;;
      L1_Insert first ;;
      do now <- gets currentThread;
      do tfirst <- deref first;
      do tnow <- deref now;
      if bool_decide (approxBurstTime tfirst < approxBurstTime tnow)
      then ret true
      else ret false
  | [] => ret false
  end.

(** ** Scheduler::aging

    The three [while] loops.  The first argument is the content of the
    list being drained, so the recursion follows [RemoveFront]; the second
    and third are the local lists under construction. *)
Definition age (t : ThreadPtr) : M unit :=
  do m <- gets machine;
  update t (Thread_aging m).

Definition insert_sorted (compare : gmap nat Thread → ThreadPtr → ThreadPtr → option Z)
    (t : ThreadPtr) (l : list ThreadPtr) : M (list ThreadPtr) :=
  do h <- gets threads;
  defined (SortedList_Insert (compare h) t l).

Fixpoint aging_L1 (l : list ThreadPtr) (newL1 : list ThreadPtr)
    : M (list ThreadPtr) :=
  match l with
  | [] => ret newL1
  | t :: rest =>
      modify (set_L1 rest) ;;
      age t ;;
      do newL1' <- insert_sorted SJFCompare t newL1;
      aging_L1 rest newL1'
  end.

Fixpoint aging_L2 (l : list ThreadPtr) (newL1 newL2 : list ThreadPtr)
    : M (list ThreadPtr * list ThreadPtr) :=
  match l with
  | [] => ret (newL1, newL2)
  | t :: rest =>
      modify (set_L2 rest) ;;
      age t ;;
      do th <- deref t;
      if bool_decide (priority th >= 100) then
        do newL1' <- insert_sorted SJFCompare t newL1;
        aging_L2 rest newL1' newL2
      else
        do newL2' <- insert_sorted PriorityCompare t newL2;
        aging_L2 rest newL1 newL2'
  end.

Fixpoint aging_L3 (l : list ThreadPtr) (newL2 newL3 : list ThreadPtr)
    : M (list ThreadPtr * list ThreadPtr) :=
  match l with
  | [] => ret (newL2, newL3)
  | t :: rest =>
      modify (set_L3 rest) ;;
      age t ;;
      do th <- deref t;
      if bool_decide (priority th >= 50) then
        do newL2' <- insert_sorted PriorityCompare t newL2;
        aging_L3 rest newL2' newL3
      else
        aging_L3 rest newL2 (List_Append t newL3)
  end.

Definition aging : M unit :=
  do l1 <- gets L1;
  do newL1 <- aging_L1 l1 [];
  do l2 <- gets L2;
  do r2 <- aging_L2 l2 newL1 [];
  do l3 <- gets L3;
  do r3 <- aging_L3 l3 r2.2 [];
  modify (set_L1 r2.1) ;;
  modify (set_L2 r3.1) ;;
  modify (set_L3 r3.2).

End Scheduler.

(** ** Vocabulary of the statements *)

Section Vocabulary.
Context `{Ext : Collaborators}.

(** The three ready queues of a state, in order of precedence. *)
Definition tiers (k : Kernel) : list ThreadPtr * list ThreadPtr * list ThreadPtr :=
  (L1 k, L2 k, L3 k).

(** Every pointer held by a ready queue designates a live thread. *)
Definition live (h : gmap nat Thread) (p : ThreadPtr) : Prop := is_Some (h !! p).

Definition tiers_live (k : Kernel) : Prop :=
  Forall (live (threads k)) (L1 k ++ L2 k ++ L3 k).

(** The key of the SJF queue and of the priority queue, read through a
    pointer ([0] stands for a dead pointer, which no statement uses). *)
Definition remaining_of (h : gmap nat Thread) (p : ThreadPtr) : Z :=
  from_option remaining 0 (h !! p).

Definition priority_of (h : gmap nat Thread) (p : ThreadPtr) : Z :=
  from_option priority 0 (h !! p).

(** The state an operation ends in, whether it returned or aborted. *)
Definition final_state {A} (o : Outcome A) : option Kernel :=
  match o with
  | Ret _ k => Some k
  | Fatal k => Some k
  | Undefined => None
  end.

(** An operation that neither inserts into nor removes from a queue. *)
Definition keeps_tiers {A} (m : M A) : Prop :=
  ∀ k k', final_state (m k) = Some k' → tiers k' = tiers k.

(** [ReadyToRun thread] returned and put [thread] into the given queue,
    leaving the two others as they were. *)
Definition admitted_L1 (thread : ThreadPtr) (k : Kernel) (o : Outcome unit) : Prop :=
  ∃ k', o = Ret tt k'
        ∧ SortedList_Insert (SJFCompare (threads k')) thread (L1 k) = Some (L1 k')
        ∧ L2 k' = L2 k ∧ L3 k' = L3 k.

Definition admitted_L2 (thread : ThreadPtr) (k : Kernel) (o : Outcome unit) : Prop :=
  ∃ k', o = Ret tt k'
        ∧ L1 k' = L1 k
        ∧ SortedList_Insert (PriorityCompare (threads k')) thread (L2 k) = Some (L2 k')
        ∧ L3 k' = L3 k.

Definition admitted_L3 (thread : ThreadPtr) (k : Kernel) (o : Outcome unit) : Prop :=
  ∃ k', o = Ret tt k'
        ∧ L1 k' = L1 k ∧ L2 k' = L2 k
        ∧ L3 k' = L3 k ++ [thread].

(** The operation returns, with a result and in a state that satisfy [Q]. *)
Definition returns {A} (m : M A) (k : Kernel) (Q : A → Kernel → Prop) : Prop :=
  ∃ a k', m k = Ret a k' ∧ Q a k'.

(** What [Run_dispatch nextThread _] needs in order to reach [SWITCH]: the
    running thread and the next one are live, the register save keeps the
    address space of a user thread, and the stack check passes. *)
Definition dispatch_ready (nextThread : ThreadPtr) (k : Kernel) : Prop :=
  ∃ old, threads k !! currentThread k = Some old
    ∧ live (threads k) nextThread
    ∧ match space old with
      | Some _ => is_Some (space (SaveUserState (machine k) old))
                  ∧ CheckOverflow (SaveUserState (machine k) old) = true
      | None => CheckOverflow old = true
      end.

(** The store after [Thread::aging] was called on the threads of a list,
    front first. *)
Fixpoint aged (m : Machine) (l : list ThreadPtr) (h : gmap nat Thread)
    : gmap nat Thread :=
  match l with
  | [] => h
  | t :: rest => aged m rest (alter (Thread_aging m) t h)
  end.

(** The route of each thread of a drained list: the first component holds
    those whose priority, read right after their own aging, has reached
    the threshold, the second holds the others; both in drain order. *)
Fixpoint routed (threshold : Z) (m : Machine) (l : list ThreadPtr)
    (h : gmap nat Thread) : list ThreadPtr * list ThreadPtr :=
  match l with
  | [] => ([], [])
  | t :: rest =>
      let h' := alter (Thread_aging m) t h in
      let r := routed threshold m rest h' in
      if bool_decide (threshold ≤ priority_of h' t)
      then (t :: r.1, r.2) else (r.1, t :: r.2)
  end.

(** [a] stands in front of [b] in a queue, so it is removed first. *)
Fixpoint precedes (a b : ThreadPtr) (l : list ThreadPtr) : Prop :=
  match l with
  | [] => False
  | x :: l' => (x = a ∧ b ∈ l') ∨ precedes a b l'
  end.

(** The position [SortedList_Insert] finds, for a total key: in front of
    the first element with a greater key. *)
Fixpoint insert_by (key : ThreadPtr → Z) (item : ThreadPtr)
    (l : list ThreadPtr) : list ThreadPtr :=
  match l with
  | [] => [item]
  | x :: l' =>
      if bool_decide (key item < key x) then item :: x :: l'
      else x :: insert_by key item l'
  end.

(** The order of the ordered queues: smaller key first; on equal keys
    the thread admitted earlier first ([adm] lists the admitted threads in
    the order of their admission). *)
Definition before (key : ThreadPtr → Z) (adm : list ThreadPtr)
    (a b : ThreadPtr) : Prop :=
  key a < key b ∨ (key a = key b ∧ precedes a b adm).

(** A queue without repetition whose threads were all admitted and stand
    in that order. *)
Definition queue_ordered (key : ThreadPtr → Z) (adm q : list ThreadPtr) : Prop :=
  NoDup q
  ∧ (∀ x, x ∈ q → x ∈ adm)
  ∧ ∀ a b, a ∈ q → b ∈ q → (precedes a b q ↔ before key adm a b).

(** Admit the threads of a list one after the other. *)
Fixpoint admit_all (adm : list ThreadPtr) : M unit :=
  match adm with
  | [] => λ k, Ret tt k
  | t :: rest => λ k,
      match ReadyToRun t k with
      | Ret _ k' => admit_all rest k'
      | Fatal k' => Fatal k'
      | Undefined => Undefined
      end
  end.

(** Call [FindNextToRun] until it returns NULL, at most [n] times, and
    collect the threads in the order they were returned. *)
Fixpoint select_all (n : nat) : M (list ThreadPtr) :=
  match n with
  | O => λ k, Ret [] k
  | S n' => λ k,
      match FindNextToRun k with
      | Ret (Some t) k' =>
          match select_all n' k' with
          | Ret l k'' => Ret (t :: l) k''
          | Fatal k'' => Fatal k''
          | Undefined => Undefined
          end
      | Ret None k' => Ret [] k'
      | Fatal k' => Fatal k'
      | Undefined => Undefined
      end
  end.

(** A queue in ascending order of a key. *)
Fixpoint ascending (key : ThreadPtr → Z) (l : list ThreadPtr) : Prop :=
  match l with
  | [] => True
  | x :: l' => Forall (λ y, key x ≤ key y) l' ∧ ascending key l'
  end.

(** An operation that ends, by return or by abort, with the same value of
    an observation [f] of the state as it started with. *)
Definition keeps {A B} (f : Kernel → B) (m : M A) : Prop :=
  ∀ k k', final_state (m k) = Some k' → f k' = f k.

(** What the queue operations and the writes to thread objects leave
    alone: the destruction slot, the running thread, the interrupt level
    and the machine. *)
Definition control (k : Kernel) : option ThreadPtr * ThreadPtr * IntStatus * Machine :=
  (toBeDestroyed k, currentThread k, level k, machine k).

(** The estimate of a thread read through a pointer, as [remaining_of]. *)
Definition approx_of (h : gmap nat Thread) (p : ThreadPtr) : Z :=
  from_option approxBurstTime 0 (h !! p).

End Vocabulary.

(** ** Concrete collaborators and states

    A trivial machine, hooks that do nothing, and an aging step that
    raises the priority by ten up to the ceiling of 149. *)

Definition bump_priority (t : Thread) : Thread :=
  {| priority := Z.min 149 (priority t + 10); status := status t;
     burstTime := burstTime t; approxBurstTime := approxBurstTime t;
     startTime := startTime t; space := space t |}.

Definition plain : Collaborators :=
  {| Machine := unit;
     SaveUserState := λ _ t, t;
     SaveState := λ _ m, m;
     RestoreUserState := λ _ m, m;
     RestoreState := λ _ m, m;
     CheckOverflow := λ _, true;
     setStartTime := λ _ t, t;
     Thread_aging := λ _ t, bump_priority t |}.

(** A thread with the given priority, consumed time and estimate. *)
Definition thread_of (prio : Z) (st : ThreadStatus) (burst approx : Z) : Thread :=
  mkThread prio st burst approx 0 None.

Definition kernel_of (l1 l2 l3 : list ThreadPtr) (d : option ThreadPtr)
    (cur : ThreadPtr) (lv : IntStatus) (h : list (nat * Thread)) : @Kernel plain :=
  @mkKernel plain l1 l2 l3 d cur lv (list_to_map h) tt.

(** Thread 0 runs with priority 200; nothing is ready. *)
Definition k_bad_priority : @Kernel plain :=
  kernel_of [] [] [] None 1 IntOff
    [(0%nat, thread_of 200 BLOCKED 0 5); (1%nat, thread_of 120 RUNNING 0 5)].

(** Thread 0 (priority 120) is about to be admitted; thread 1 is ready in
    L1, thread 2 in L2, thread 3 in L3; thread 4 runs. *)
Definition k_admit : @Kernel plain :=
  kernel_of [1%nat] [2%nat] [3%nat] None 4 IntOff
    [(0%nat, thread_of 120 BLOCKED 2 10); (1%nat, thread_of 125 READY 1 5);
     (2%nat, thread_of 60 READY 0 7); (3%nat, thread_of 10 READY 0 9);
     (4%nat, thread_of 130 RUNNING 3 6)].

(** Thread 0 runs: estimate 8, nothing consumed (remaining work 8).
    Thread 1 is the only thread in L1: estimate 10, consumed 7
    (remaining work 3). *)
Definition k_preempt : @Kernel plain :=
  kernel_of [1%nat] [] [] None 0 IntOff
    [(0%nat, thread_of 120 RUNNING 0 8); (1%nat, thread_of 120 READY 7 10)].

(** Thread 0 runs; threads 1 and 2 have the same estimate and the same
    consumed time; no thread is ready yet. *)
Definition k_fresh : @Kernel plain :=
  @Scheduler_init plain 0%nat IntOff
    (list_to_map [(0%nat, thread_of 120 RUNNING 1 9);
                  (1%nat, thread_of 120 READY 2 5);
                  (2%nat, thread_of 120 READY 2 5)]) tt.

(** The state after thread 1 and then thread 2 were admitted. *)
Definition k_tie : @Kernel plain := set_L1 [1%nat; 2%nat] k_fresh.

(** A state for the aging pass: thread 1 in L1; threads 2 (priority 95)
    and 5 (priority 60) in L2; threads 3 (priority 48) and 6 (priority 10)
    in L3; thread 4 runs. *)
Definition k_aging : @Kernel plain :=
  kernel_of [1%nat] [2%nat; 5%nat] [3%nat; 6%nat] None 4 IntOff
    [(1%nat, thread_of 140 READY 1 5); (2%nat, thread_of 95 READY 0 7);
     (3%nat, thread_of 48 READY 0 9); (4%nat, thread_of 130 RUNNING 3 6);
     (5%nat, thread_of 60 READY 0 4); (6%nat, thread_of 10 READY 0 2)].

(** Five threads to admit: 1 and 2 have remaining work 3 and priorities
    of the first band, 6 has remaining work 1; 3 and 5 have priority 60. *)
Definition k_order : @Kernel plain :=
  @Scheduler_init plain 0%nat IntOff
    (list_to_map [(0%nat, thread_of 120 RUNNING 1 9);
                  (1%nat, thread_of 120 BLOCKED 2 5);
                  (2%nat, thread_of 130 BLOCKED 4 7);
                  (3%nat, thread_of 60 BLOCKED 0 5);
                  (5%nat, thread_of 60 BLOCKED 1 2);
                  (6%nat, thread_of 110 BLOCKED 0 1)]) tt.

Definition adm_order : list ThreadPtr := [1%nat; 2%nat; 3%nat; 5%nat; 6%nat].

(** As [k_admit], with interrupts on. *)
Definition k_interrupts_on : @Kernel plain :=
  kernel_of [1%nat] [2%nat] [3%nat] None 4 IntOn
    [(0%nat, thread_of 120 BLOCKED 2 10); (1%nat, thread_of 125 READY 1 5);
     (2%nat, thread_of 60 READY 0 7); (3%nat, thread_of 10 READY 0 9);
     (4%nat, thread_of 130 RUNNING 3 6)].

(** Thread 2 has finished and is staged for destruction; thread 4 runs;
    thread 1 is ready. *)
Definition k_staged : @Kernel plain :=
  kernel_of [1%nat] [] [] (Some 2%nat) 4 IntOff
    [(1%nat, thread_of 125 READY 1 5); (2%nat, thread_of 60 FINISHED 7 7);
     (4%nat, thread_of 130 RUNNING 3 6)].

(** Thread 3 sits in L3 although its priority has meanwhile been raised
    to 95; thread 4 runs. *)
Definition k_ladder : @Kernel plain :=
  kernel_of [] [] [3%nat] None 4 IntOff
    [(3%nat, thread_of 95 READY 0 9); (4%nat, thread_of 130 RUNNING 3 6)].

(** [k_admit] after [ReadyToRun] of thread 0. *)
Definition k_admitted : @Kernel plain :=
  kernel_of [1%nat; 0%nat] [2%nat] [3%nat] None 4 IntOff
    [(0%nat, thread_of 120 READY 2 10); (1%nat, thread_of 125 READY 1 5);
     (2%nat, thread_of 60 READY 0 7); (3%nat, thread_of 10 READY 0 9);
     (4%nat, thread_of 130 RUNNING 3 6)].

(** * Properties *)

Section Properties.
Context `{Ext : Collaborators}.

(** ** The list library *)

Lemma SortedList_Insert_length compare item l l' :
  SortedList_Insert compare item l = Some l' → length l' = S (length l).
Proof.
  revert l'. induction l as [|x l IH]; intros l' H; simpl in H.
  - by inversion H.
  - destruct (compare item x) as [c|]; simpl in H; [|done].
    case_bool_decide.
    + by inversion H.
    + destruct (SortedList_Insert compare item l) as [r|]; simpl in H; [|done].
      inversion H; subst. simpl. f_equal. by apply IH.
Qed.

Lemma SortedList_Insert_perm compare item l l' :
  SortedList_Insert compare item l = Some l' → l' ≡ₚ item :: l.
Proof.
  revert l'. induction l as [|x l IH]; intros l' H; simpl in H.
  - by inversion H.
  - destruct (compare item x) as [c|]; simpl in H; [|done].
    case_bool_decide.
    + by inversion H.
    + destruct (SortedList_Insert compare item l) as [r|]; simpl in H; [|done].
      inversion H; subst. rewrite (IH r eq_refl). apply Permutation_swap.
Qed.

(** With live pointers the comparators and the insertion are defined. *)
Lemma SJFCompare_live h a b :
  live h a → live h b → is_Some (SJFCompare h a b).
Proof. intros [ta Ha] [tb Hb]. unfold SJFCompare. rewrite Ha, Hb. simpl. eauto. Qed.

Lemma PriorityCompare_live h a b :
  live h a → live h b → is_Some (PriorityCompare h a b).
Proof. intros [ta Ha] [tb Hb]. unfold PriorityCompare. rewrite Ha, Hb. simpl. eauto. Qed.

Lemma SortedList_Insert_defined compare item l :
  Forall (λ x, is_Some (compare item x)) l →
  is_Some (SortedList_Insert compare item l).
Proof.
  induction 1 as [|x l [c Hc] _ [r IH]]; simpl; [eauto|].
  rewrite Hc. simpl. case_bool_decide; [eauto|]. rewrite IH. simpl. eauto.
Qed.

Lemma SJF_Insert_defined h item l :
  live h item → Forall (live h) l →
  is_Some (SortedList_Insert (SJFCompare h) item l).
Proof.
  intros Hi Hl. apply SortedList_Insert_defined.
  eapply Forall_impl; [exact Hl|]. intros x Hx. by apply SJFCompare_live.
Qed.

Lemma Priority_Insert_defined h item l :
  live h item → Forall (live h) l →
  is_Some (SortedList_Insert (PriorityCompare h) item l).
Proof.
  intros Hi Hl. apply SortedList_Insert_defined.
  eapply Forall_impl; [exact Hl|]. intros x Hx. by apply PriorityCompare_live.
Qed.

(** Writing an object keeps every pointer live. *)
Lemma live_insert h p t q : live h q → live (<[p := t]> h) q.
Proof.
  intros [x Hx]. unfold live. destruct (decide (p = q)) as [->|Hne].
  - rewrite lookup_insert_eq. eauto.
  - rewrite lookup_insert_ne by done. eauto.
Qed.

Lemma Forall_live_insert h p t l :
  Forall (live h) l → Forall (live (<[p := t]> h)) l.
Proof. intros H. eapply Forall_impl; [exact H|]. intros q. apply live_insert. Qed.

(** ** Admission *)

(** The three branches of [ReadyToRun], one equation each. *)
Lemma ReadyToRun_unfold thread k t :
  level k = IntOff → threads k !! thread = Some t →
  ReadyToRun thread k =
    let k1 := set_threads (<[thread := setStatus READY t]> (threads k)) k in
    if bool_decide (100 ≤ priority t ≤ 149) then L1_Insert thread k1
    else if bool_decide (50 ≤ priority t ≤ 99) then L2_Insert thread k1
    else if bool_decide (0 ≤ priority t ≤ 49) then L3_Append thread k1
    else Fatal k1.
Proof.
  intros Hl Ht. unfold ReadyToRun, bind, ASSERT, interrupts_off, update, deref.
  rewrite Hl. simpl. rewrite Ht. simpl. rewrite lookup_insert_eq. simpl.
  repeat case_bool_decide; simpl; try lia; reflexivity.
Qed.

Lemma ReadyToRun_interrupts_on thread k :
  level k ≠ IntOff → ReadyToRun thread k = Fatal k.
Proof.
  intros Hl. unfold ReadyToRun, bind, ASSERT, interrupts_off.
  by rewrite bool_decide_eq_false_2.
Qed.

Lemma L1_Insert_unfold thread k :
  L1_Insert thread k =
    match SortedList_Insert (SJFCompare (threads k)) thread (L1 k) with
    | Some l => Ret tt (set_L1 l k)
    | None => Undefined
    end.
Proof.
  unfold L1_Insert, bind, gets, defined, modify. simpl.
  by destruct (SortedList_Insert _ _ _).
Qed.

Lemma L2_Insert_unfold thread k :
  L2_Insert thread k =
    match SortedList_Insert (PriorityCompare (threads k)) thread (L2 k) with
    | Some l => Ret tt (set_L2 l k)
    | None => Undefined
    end.
Proof.
  unfold L2_Insert, bind, gets, defined, modify. simpl.
  by destruct (SortedList_Insert _ _ _).
Qed.

(** C3.  With interrupts off and live pointers, [ReadyToRun] puts a
    thread of priority [p] into L1 exactly when [100 <= p <= 149], into L2
    exactly when [50 <= p <= 99], into L3 exactly when [0 <= p <= 49]; for
    [p < 0] or [p > 149] it aborts and the three queues are as before. *)
Theorem ReadyToRun_bands (k : Kernel) (thread : ThreadPtr) (t : Thread) :
  level k = IntOff →
  threads k !! thread = Some t →
  tiers_live k →
  (admitted_L1 thread k (ReadyToRun thread k) ↔ 100 ≤ priority t ≤ 149)
  ∧ (admitted_L2 thread k (ReadyToRun thread k) ↔ 50 ≤ priority t ≤ 99)
  ∧ (admitted_L3 thread k (ReadyToRun thread k) ↔ 0 ≤ priority t ≤ 49)
  ∧ (priority t < 0 ∨ 149 < priority t →
     ∃ k', ReadyToRun thread k = Fatal k' ∧ tiers k' = tiers k).
Proof.
  intros Hl Ht Hlive.
  rewrite (ReadyToRun_unfold _ _ _ Hl Ht). cbv zeta.
  set (h1 := <[thread := setStatus READY t]> (threads k)).
  set (k1 := set_threads h1 k).
  assert (Hthr : live h1 thread) by (unfold live, h1; rewrite lookup_insert_eq; eauto).
  assert (Hall : Forall (live h1) (L1 k ++ L2 k ++ L3 k))
    by (apply Forall_live_insert, Hlive).
  apply Forall_app in Hall as [H1 Hall]. apply Forall_app in Hall as [H2 _].
  destruct (SJF_Insert_defined h1 thread (L1 k) Hthr H1) as [r1 Hr1].
  destruct (Priority_Insert_defined h1 thread (L2 k) Hthr H2) as [r2 Hr2].
  pose proof (SortedList_Insert_length _ _ _ _ Hr1) as Hlen1.
  pose proof (SortedList_Insert_length _ _ _ _ Hr2) as Hlen2.
  rewrite L1_Insert_unfold, L2_Insert_unfold. simpl. fold h1.
  rewrite Hr1, Hr2. unfold L3_Append, modify, List_Append.
  unfold admitted_L1, admitted_L2, admitted_L3.
  repeat case_bool_decide; (repeat split); intros; try lia;
    try (eexists; split; [reflexivity|]; simpl; by eauto);
    try match goal with
        | H : ∃ _, _ |- _ =>
            destruct H as (k' & Heq & HA & HB & HC);
            inversion Heq; subst k'; simpl in *; fold h1 in HA, HB, HC
        end.
  all: try (exfalso;
            repeat match goal with
                   | H : SortedList_Insert _ _ _ = Some _ |- _ =>
                       apply SortedList_Insert_length in H
                   | H : _ = _ ++ [_] |- _ =>
                       apply (f_equal length) in H; rewrite ?length_app in H; simpl in H
                   | H : @eq (list nat) _ _ |- _ =>
                       apply (f_equal length) in H
                   end; simpl in *; lia).
Qed.

(** C8 as amended.  For a priority outside [0,149] [ReadyToRun] aborts
    with every queue as it was.  With interrupts off the status of the
    thread has been set to READY by then and nothing else has changed;
    with interrupts on nothing at all has changed. *)
Theorem ReadyToRun_out_of_range (k : Kernel) (thread : ThreadPtr) (t : Thread) :
  threads k !! thread = Some t →
  priority t < 0 ∨ 149 < priority t →
  ReadyToRun thread k =
    Fatal (if bool_decide (level k = IntOff)
           then set_threads (<[thread := setStatus READY t]> (threads k)) k
           else k)
  ∧ ∀ k', ReadyToRun thread k = Fatal k' → tiers k' = tiers k.
Proof.
  intros Ht Hp.
  assert (Heq : ReadyToRun thread k =
    Fatal (if bool_decide (level k = IntOff)
           then set_threads (<[thread := setStatus READY t]> (threads k)) k
           else k)).
  { case_bool_decide as Hl.
    - rewrite (ReadyToRun_unfold _ _ _ Hl Ht). cbv zeta.
      repeat case_bool_decide; try lia. reflexivity.
    - by apply ReadyToRun_interrupts_on. }
  split; [exact Heq|].
  intros k' Hk'. rewrite Heq in Hk'. inversion Hk'; subst k'.
  by case_bool_decide.
Qed.

(** ** Selection *)

Lemma FindNextToRun_unfold k :
  level k = IntOff →
  FindNextToRun k =
    match L1 k, L2 k, L3 k with
    | t :: rest, _, _ => Ret (Some t) (set_L1 rest k)
    | [], t :: rest, _ => Ret (Some t) (set_L2 rest k)
    | [], [], t :: rest => Ret (Some t) (set_L3 rest k)
    | [], [], [] => Ret None k
    end.
Proof.
  intros Hl.
  unfold FindNextToRun, bind, ASSERT, interrupts_off, gets, modify, ret.
  rewrite Hl. simpl.
  destruct (L1 k); [|done]. destruct (L2 k); [|done]. by destruct (L3 k).
Qed.

(** C4.  With interrupts off, [FindNextToRun] removes and returns the
    front of L1 when L1 is not empty, else the front of L2 when L2 is not
    empty, else the front of L3 when L3 is not empty, and returns NULL in
    an unchanged state when the three queues are empty.  Hence a thread
    returned while L1 is not empty is the front of L1, and one returned
    while L1 is empty and L2 is not is the front of L2. *)
Theorem FindNextToRun_precedence (k : Kernel) :
  level k = IntOff →
  FindNextToRun k =
    match L1 k, L2 k, L3 k with
    | t :: rest, _, _ => Ret (Some t) (set_L1 rest k)
    | [], t :: rest, _ => Ret (Some t) (set_L2 rest k)
    | [], [], t :: rest => Ret (Some t) (set_L3 rest k)
    | [], [], [] => Ret None k
    end
  ∧ (∀ t k', FindNextToRun k = Ret (Some t) k' →
       (L1 k ≠ [] → head (L1 k) = Some t ∧ L2 k' = L2 k ∧ L3 k' = L3 k)
       ∧ (L1 k = [] → L2 k ≠ [] → head (L2 k) = Some t ∧ L3 k' = L3 k)).
Proof.
  intros Hl. pose proof (FindNextToRun_unfold k Hl) as Heq.
  split; [exact Heq|].
  intros t k' Hk'. rewrite Heq in Hk'.
  destruct (L1 k) as [|a l1] eqn:E1; [destruct (L2 k) as [|b l2] eqn:E2|].
  - split; [done|]. intros _ Hne. done.
  - split; [done|]. intros _ _. by inversion Hk'; subst.
  - split; [|done]. intros _. inversion Hk'; subst. by simpl.
Qed.

(** ** Operations that leave the queues alone *)

Lemma keeps_tiers_ret {A} (a : A) : keeps_tiers (ret a).
Proof. intros k k' H. by injection H as <-. Qed.

Lemma keeps_tiers_bind {A B} (m : M A) (f : A → M B) :
  keeps_tiers m → (∀ a, keeps_tiers (f a)) → keeps_tiers (bind m f).
Proof.
  intros Hm Hf k k' H. unfold bind in H.
  destruct (m k) as [a k1| k1 |] eqn:E.
  - rewrite (Hf a k1 k' H). apply Hm. by rewrite E.
  - apply Hm. by rewrite E.
  - done.
Qed.

Lemma keeps_tiers_gets {A} (f : Kernel → A) : keeps_tiers (gets f).
Proof. intros k k' H. by injection H as <-. Qed.

Lemma keeps_tiers_ASSERT cond : keeps_tiers (ASSERT cond).
Proof. intros k k' H. unfold ASSERT in H. destruct (cond k); by injection H as <-. Qed.

Lemma keeps_tiers_defined {A} (o : option A) : keeps_tiers (defined o).
Proof. intros k k' H. unfold defined in H. destruct o; [by injection H as <-|done]. Qed.

Lemma keeps_tiers_deref p : keeps_tiers (deref p).
Proof.
  intros k k' H. unfold deref in H.
  destruct (threads k !! p); [by injection H as <-|done].
Qed.

Lemma keeps_tiers_update p f : keeps_tiers (update p f).
Proof.
  intros k k' H. unfold update in H.
  destruct (threads k !! p); [by injection H as <-|done].
Qed.

Lemma keeps_tiers_delete_thread p : keeps_tiers (delete_thread p).
Proof.
  intros k k' H. unfold delete_thread in H.
  destruct (threads k !! p); [by injection H as <-|done].
Qed.

Lemma keeps_tiers_modify f :
  (∀ k, tiers (f k) = tiers k) → keeps_tiers (modify f).
Proof. intros Hf k k' H. injection H as <-. apply Hf. Qed.

Create HintDb frame.

Local Hint Resolve keeps_tiers_ret keeps_tiers_gets keeps_tiers_ASSERT
  keeps_tiers_defined keeps_tiers_deref keeps_tiers_update
  keeps_tiers_delete_thread : frame.

Ltac frame_step :=
  first
    [ apply keeps_tiers_bind; [|intros ?]
    | apply keeps_tiers_modify; intros ?; reflexivity
    | solve [auto with frame]
    | match goal with |- keeps_tiers (if ?b then _ else _) => destruct b end
    | match goal with |- keeps_tiers (match ?o with _ => _ end) => destruct o end ].

Lemma keeps_tiers_CheckToBeDestroyed : keeps_tiers CheckToBeDestroyed.
Proof. unfold CheckToBeDestroyed. repeat frame_step. Qed.

Lemma keeps_tiers_Run_dispatch nextThread finishing :
  keeps_tiers (Run_dispatch nextThread finishing).
Proof. unfold Run_dispatch. repeat frame_step. Qed.

Lemma keeps_tiers_Run_resume oldThread : keeps_tiers (Run_resume oldThread).
Proof.
  unfold Run_resume.
  apply keeps_tiers_bind; [auto with frame|intros _].
  apply keeps_tiers_bind; [apply keeps_tiers_CheckToBeDestroyed|intros _].
  repeat frame_step.
Qed.

(** C10.  [Run] performs no insertion into and no removal from L1, L2 and
    L3: the code in front of [SWITCH] and the code behind it each end, by
    return or by abort, with the three queues exactly as they found them;
    so whatever the queues look like after a whole call is the doing of
    the threads that ran during [SWITCH]. *)
Theorem Run_keeps_tiers (nextThread oldThread : ThreadPtr) (finishing : bool) :
  keeps_tiers (Run_dispatch nextThread finishing)
  ∧ keeps_tiers (Run_resume oldThread)
  ∧ ∀ SWITCH : ThreadPtr → ThreadPtr → M unit,
      (∀ a b, keeps_tiers (SWITCH a b)) →
      keeps_tiers (Run SWITCH nextThread finishing).
Proof.
  split; [apply keeps_tiers_Run_dispatch|].
  split; [apply keeps_tiers_Run_resume|].
  intros SWITCH HS. unfold Run.
  apply keeps_tiers_bind; [apply keeps_tiers_Run_dispatch|intros old].
  apply keeps_tiers_bind; [apply HS|intros _].
  apply keeps_tiers_Run_resume.
Qed.

(** ** Operations that return *)

Lemma returns_ret {A} (a : A) k Q : Q a k → returns (ret a) k Q.
Proof. intros H. by exists a, k. Qed.

Lemma returns_bind {A B} (m : M A) (f : A → M B) k Q :
  returns m k (λ a k1, returns (f a) k1 Q) → returns (bind m f) k Q.
Proof.
  intros (a & k1 & Hm & b & k2 & Hf & HQ). exists b, k2.
  unfold bind. by rewrite Hm.
Qed.

Lemma returns_gets {A} (f : Kernel → A) k Q : Q (f k) k → returns (gets f) k Q.
Proof. intros H. by exists (f k), k. Qed.

Lemma returns_modify f k Q : Q tt (f k) → returns (modify f) k Q.
Proof. intros H. by exists tt, (f k). Qed.

Lemma returns_ASSERT cond k Q :
  cond k = true → Q tt k → returns (ASSERT cond) k Q.
Proof. intros Hc H. exists tt, k. unfold ASSERT. by rewrite Hc. Qed.

Lemma returns_defined {A} (o : option A) a k Q :
  o = Some a → Q a k → returns (defined o) k Q.
Proof. intros -> H. by exists a, k. Qed.

Lemma returns_deref p t k Q :
  threads k !! p = Some t → Q t k → returns (deref p) k Q.
Proof. intros Hp H. exists t, k. unfold deref. by rewrite Hp. Qed.

Lemma returns_update p f t k Q :
  threads k !! p = Some t →
  Q tt (set_threads (<[p := f t]> (threads k)) k) →
  returns (update p f) k Q.
Proof. intros Hp H. eexists tt, _. unfold update. by rewrite Hp. Qed.

Lemma returns_delete_thread p k Q :
  live (threads k) p →
  Q tt (set_threads (delete p (threads k)) k) →
  returns (delete_thread p) k Q.
Proof. intros [t Hp] H. eexists tt, _. unfold delete_thread. by rewrite Hp. Qed.

(** ** Deferred destruction *)

Lemma CheckToBeDestroyed_empty k :
  toBeDestroyed k = None → CheckToBeDestroyed k = Ret tt k.
Proof. intros H. unfold CheckToBeDestroyed, bind, gets. simpl. by rewrite H. Qed.

Lemma CheckToBeDestroyed_occupied k p :
  toBeDestroyed k = Some p → live (threads k) p →
  CheckToBeDestroyed k =
    Ret tt (set_toBeDestroyed None (set_threads (delete p (threads k)) k)).
Proof.
  intros H [t Hp]. unfold CheckToBeDestroyed, bind, gets, delete_thread, modify.
  simpl. rewrite H. by rewrite Hp.
Qed.

Lemma CheckToBeDestroyed_clears k k' :
  CheckToBeDestroyed k = Ret tt k' → toBeDestroyed k' = None.
Proof.
  unfold CheckToBeDestroyed, bind, gets, delete_thread, modify, ret. simpl.
  destruct (toBeDestroyed k) as [p|] eqn:E.
  - destruct (threads k !! p); [|done]. by intros [= <-].
  - intros [= <-]. done.
Qed.

Lemma Run_dispatch_slot_conflict k nextThread :
  toBeDestroyed k ≠ None → Run_dispatch nextThread true k = Fatal k.
Proof.
  intros H. unfold Run_dispatch, bind, gets, ASSERT. simpl.
  destruct (interrupts_off k); [|done].
  by rewrite bool_decide_eq_false_2.
Qed.

Lemma Run_dispatch_finishing k nextThread :
  level k = IntOff → toBeDestroyed k = None → dispatch_ready nextThread k →
  returns (Run_dispatch nextThread true) k (λ old k1,
    old = currentThread k
    ∧ toBeDestroyed k1 = Some (currentThread k)
    ∧ live (threads k1) (currentThread k)
    ∧ currentThread k1 = nextThread).
Proof.
  intros Hl Hslot (old & Hold & Hnext & Hsp).
  unfold Run_dispatch.
  apply returns_bind, returns_gets.
  apply returns_bind, returns_ASSERT;
    [by unfold interrupts_off; rewrite bool_decide_eq_true_2|].
  apply returns_bind, returns_bind, returns_ASSERT;
    [by rewrite bool_decide_eq_true_2|].
  apply returns_modify.
  set (k0 := set_toBeDestroyed (Some (currentThread k)) k).
  assert (∃ k1 old1, threads k1 !! currentThread k = Some old1
            ∧ CheckOverflow old1 = true
            ∧ live (threads k1) nextThread
            ∧ toBeDestroyed k1 = Some (currentThread k)
            ∧ returns
                (do old <- deref (currentThread k);
                 match space old with
                 | Some _ =>
                     do m <- gets machine;
                     update (currentThread k) (SaveUserState m) ;;
                     do old' <- deref (currentThread k);
                     do sp <- defined (space old');
                     modify (λ k, set_machine (SaveState sp (machine k)) k)
                 | None => ret tt
                 end) k0 (λ _ k', k' = k1)) as (k1 & old1 & Hold1 & Hchk & Hnext1 & Hslot1 & Hsave).
  { destruct (space old) as [sp|] eqn:Esp.
    - destruct Hsp as [[sp' Hsp'] Hchk].
      eexists _, _. split; [|split; [exact Hchk|split; [|split]]]; cycle 3.
      + apply returns_bind. eapply returns_deref; [exact Hold|]. rewrite Esp.
        apply returns_bind, returns_gets.
        apply returns_bind. eapply returns_update; [exact Hold|].
        apply returns_bind. eapply returns_deref; [apply lookup_insert_eq|].
        apply returns_bind. eapply returns_defined; [exact Hsp'|].
        apply returns_modify. reflexivity.
      + simpl. apply lookup_insert_eq.
      + simpl. by apply live_insert.
      + reflexivity.
    - exists k0, old. repeat split; try done.
      apply returns_bind. eapply returns_deref; [exact Hold|]. rewrite Esp.
      by apply returns_ret. }
  destruct Hsave as (? & k1' & Hrun & ->).
  apply returns_bind. eexists _, _. split; [exact Hrun|]. simpl.
  apply returns_bind, returns_bind. eapply returns_deref; [exact Hold1|].
  apply returns_ASSERT; [exact Hchk|].
  apply returns_bind, returns_modify.
  destruct Hnext1 as [tn Htn].
  apply returns_bind. eapply returns_update; [exact Htn|].
  apply returns_bind, returns_bind, returns_gets.
  eapply returns_update; [apply lookup_insert_eq|].
  apply returns_ret. simpl. repeat split; try done.
  do 2 apply live_insert. by eexists.
Qed.

(** C5.  A finishing dispatch that reaches [SWITCH] has put the running
    thread into [toBeDestroyed]; a finishing dispatch requested in that
    state aborts without changing it; [CheckToBeDestroyed] then empties
    the slot, and a second [CheckToBeDestroyed] returns in the very same
    state.  In general a finishing dispatch on an occupied slot aborts,
    the slot is empty after every [CheckToBeDestroyed] that returns, and
    [CheckToBeDestroyed] on an empty slot changes nothing. *)
Theorem destruction_discipline (k : Kernel) (nextThread : ThreadPtr) :
  level k = IntOff →
  toBeDestroyed k = None →
  dispatch_ready nextThread k →
  (∃ k1 k2,
      Run_dispatch nextThread true k = Ret (currentThread k) k1
      ∧ toBeDestroyed k1 = Some (currentThread k)
      ∧ (∀ n, Run_dispatch n true k1 = Fatal k1)
      ∧ CheckToBeDestroyed k1 = Ret tt k2
      ∧ toBeDestroyed k2 = None
      ∧ CheckToBeDestroyed k2 = Ret tt k2)
  ∧ (∀ k0 n, toBeDestroyed k0 ≠ None → Run_dispatch n true k0 = Fatal k0)
  ∧ (∀ k0 k2, CheckToBeDestroyed k0 = Ret tt k2 → toBeDestroyed k2 = None)
  ∧ (∀ k0, toBeDestroyed k0 = None → CheckToBeDestroyed k0 = Ret tt k0).
Proof.
  intros Hl Hslot Hready.
  split; [|split; [intros; by apply Run_dispatch_slot_conflict
                  |split; [apply CheckToBeDestroyed_clears
                          |apply CheckToBeDestroyed_empty]]].
  destruct (Run_dispatch_finishing k nextThread Hl Hslot Hready)
    as (old & k1 & Hrun & -> & Hstaged & Hlive & _).
  eexists k1, _. split; [exact Hrun|]. split; [exact Hstaged|].
  split; [intros n; apply Run_dispatch_slot_conflict; by rewrite Hstaged|].
  split; [by apply CheckToBeDestroyed_occupied|].
  split; [reflexivity|]. by apply CheckToBeDestroyed_empty.
Qed.

(** ** The preemption check *)

(** What [checkPreemptive] computes on a non-empty L1: the front is taken
    out and inserted again, and the answer compares the two estimates. *)
Lemma checkPreemptive_unfold k first rest tfirst tnow l :
  L1 k = first :: rest →
  threads k !! first = Some tfirst →
  threads k !! currentThread k = Some tnow →
  SortedList_Insert (SJFCompare (threads k)) first rest = Some l →
  checkPreemptive k =
    Ret (bool_decide (approxBurstTime tfirst < approxBurstTime tnow)) (set_L1 l k).
Proof.
  intros HL Hf Hn Hins.
  unfold checkPreemptive, bind, gets, modify. simpl. rewrite HL.
  rewrite L1_Insert_unfold. simpl. rewrite Hins.
  unfold deref, ret. simpl. rewrite Hf. simpl. rewrite Hn.
  by case_bool_decide.
Qed.

Lemma checkPreemptive_empty k : L1 k = [] → checkPreemptive k = Ret false k.
Proof. intros HL. unfold checkPreemptive, bind, gets. simpl. by rewrite HL. Qed.

(** The check modifies no thread and keeps L2 and L3; L1 keeps its
    members and their number. *)
Lemma checkPreemptive_frame k k' :
  final_state (checkPreemptive k) = Some k' →
  L1 k' ≡ₚ L1 k ∧ L2 k' = L2 k ∧ L3 k' = L3 k ∧ threads k' = threads k
  ∧ toBeDestroyed k' = toBeDestroyed k ∧ currentThread k' = currentThread k.
Proof.
  destruct (L1 k) as [|first rest] eqn:HL.
  { rewrite (checkPreemptive_empty k HL). intros [= <-]. by rewrite HL. }
  unfold checkPreemptive, bind, gets, modify. simpl. rewrite HL.
  rewrite L1_Insert_unfold. simpl.
  destruct (SortedList_Insert _ first rest) as [l|] eqn:Hins; [|done].
  unfold deref, ret. simpl.
  destruct (threads k !! first); [|done]. simpl.
  destruct (threads k !! currentThread k); [|done].
  apply SortedList_Insert_perm in Hins.
  case_bool_decide; intros [= <-]; simpl; by rewrite Hins.
Qed.

(** ** The aging pass *)

Lemma returns_mono {A} (m : M A) k (Q Q' : A → Kernel → Prop) :
  returns m k Q → (∀ a k', Q a k' → Q' a k') → returns m k Q'.
Proof. intros (a & k' & Hm & HQ) H. exists a, k'. auto. Qed.

Lemma live_alter f p h q : live (alter f p h) q ↔ live h q.
Proof. unfold live. apply lookup_alter_is_Some. Qed.

Lemma Forall_live_alter f p h l :
  Forall (live h) l → Forall (live (alter f p h)) l.
Proof. intros H. eapply Forall_impl; [exact H|]. intros q. by rewrite live_alter. Qed.

Lemma live_aged m l h q : live (aged m l h) q ↔ live h q.
Proof.
  revert h. induction l as [|t l IH]; intros h; simpl; [done|].
  by rewrite IH, live_alter.
Qed.

Lemma update_alter p f k :
  live (threads k) p →
  update p f k = Ret tt (set_threads (alter f p (threads k)) k).
Proof.
  intros [t Hp]. unfold update. rewrite Hp. do 2 f_equal.
  by rewrite <- (insert_id (threads k) p t Hp) at 2; rewrite alter_insert_eq.
Qed.

Lemma age_returns t k Q :
  live (threads k) t →
  Q tt (set_threads (alter (Thread_aging (machine k)) t (threads k)) k) →
  returns (age t) k Q.
Proof.
  intros Hp H. unfold age. apply returns_bind, returns_gets.
  eexists tt, _. split; [by apply update_alter|done].
Qed.

Lemma insert_sorted_SJF_returns t l k (Q : list ThreadPtr → Kernel → Prop) :
  live (threads k) t → Forall (live (threads k)) l →
  (∀ l', l' ≡ₚ t :: l → Q l' k) →
  returns (insert_sorted SJFCompare t l) k Q.
Proof.
  intros Ht Hl H. unfold insert_sorted. apply returns_bind, returns_gets.
  destruct (SJF_Insert_defined _ _ _ Ht Hl) as [l' Hl'].
  eapply returns_defined; [exact Hl'|]. by eapply H, SortedList_Insert_perm.
Qed.

Lemma insert_sorted_Priority_returns t l k (Q : list ThreadPtr → Kernel → Prop) :
  live (threads k) t → Forall (live (threads k)) l →
  (∀ l', l' ≡ₚ t :: l → Q l' k) →
  returns (insert_sorted PriorityCompare t l) k Q.
Proof.
  intros Ht Hl H. unfold insert_sorted. apply returns_bind, returns_gets.
  destruct (Priority_Insert_defined _ _ _ Ht Hl) as [l' Hl'].
  eapply returns_defined; [exact Hl'|]. by eapply H, SortedList_Insert_perm.
Qed.

Lemma priority_of_lookup h p t : h !! p = Some t → priority_of h p = priority t.
Proof. intros H. unfold priority_of. by rewrite H. Qed.

(** The first loop: every thread of L1 is aged and goes to the new L1. *)
Lemma aging_L1_returns l : ∀ newL1 k,
  Forall (live (threads k)) (l ++ newL1) →
  returns (aging_L1 l newL1) k (λ r k',
    r ≡ₚ newL1 ++ l
    ∧ threads k' = aged (machine k) l (threads k)
    ∧ L2 k' = L2 k ∧ L3 k' = L3 k ∧ machine k' = machine k).
Proof.
  induction l as [|t rest IH]; intros newL1 k Hlive; simpl.
  { apply returns_ret. by rewrite app_nil_r. }
  apply Forall_app in Hlive as [Hl Hn]. apply Forall_cons in Hl as [Ht Hrest].
  apply returns_bind, returns_modify.
  apply returns_bind, age_returns; [exact Ht|].
  apply returns_bind, insert_sorted_SJF_returns; simpl.
  { by apply live_alter. }
  { by apply Forall_live_alter. }
  intros l' Hl'.
  eapply returns_mono.
  { apply IH. simpl. apply Forall_app. split; [by apply Forall_live_alter|].
    rewrite Hl'. apply Forall_cons. split; [by apply live_alter|].
    by apply Forall_live_alter. }
  simpl. intros r k' (Hr & Hh & H2 & H3 & Hm). repeat split; try done.
  rewrite Hr, Hl'. by rewrite <- Permutation_middle.
Qed.

(** The second loop: a thread of L2 goes to the new L1 when its priority
    has reached 100, to the new L2 otherwise. *)
Lemma aging_L2_returns l : ∀ newL1 newL2 k,
  Forall (live (threads k)) (l ++ newL1 ++ newL2) →
  returns (aging_L2 l newL1 newL2) k (λ r k',
    r.1 ≡ₚ newL1 ++ (routed 100 (machine k) l (threads k)).1
    ∧ r.2 ≡ₚ newL2 ++ (routed 100 (machine k) l (threads k)).2
    ∧ threads k' = aged (machine k) l (threads k)
    ∧ L3 k' = L3 k ∧ machine k' = machine k).
Proof.
  induction l as [|t rest IH]; intros newL1 newL2 k Hlive; simpl.
  { apply returns_ret. simpl. by rewrite !app_nil_r. }
  apply Forall_app in Hlive as [Hl Hn]. apply Forall_cons in Hl as [Ht Hrest].
  apply Forall_app in Hn as [Hn1 Hn2].
  apply returns_bind, returns_modify.
  apply returns_bind, age_returns; [exact Ht|].
  set (h' := alter (Thread_aging (machine k)) t (threads k)).
  destruct Ht as [th Hth].
  assert (Hth' : h' !! t = Some (Thread_aging (machine k) th))
    by (unfold h'; rewrite lookup_alter_eq, Hth; done).
  apply returns_bind. eapply returns_deref; [exact Hth'|].
  rewrite (priority_of_lookup _ _ _ Hth').
  assert (Ht' : live h' t) by (by eexists).
  destruct (bool_decide (priority (Thread_aging (machine k) th) >= 100)) eqn:E.
  - rewrite bool_decide_eq_true_2
      by (apply bool_decide_eq_true_1 in E; lia).
    apply returns_bind, insert_sorted_SJF_returns; simpl;
      [done|by apply Forall_live_alter|].
    intros l' Hl'. eapply returns_mono.
    { apply IH. simpl. apply Forall_app. split; [by apply Forall_live_alter|].
      apply Forall_app. split; [|by apply Forall_live_alter].
      rewrite Hl'. apply Forall_cons. split; [done|by apply Forall_live_alter]. }
    simpl. fold h'. intros r k' (Hr1 & Hr2 & Hh & H3 & Hm). repeat split; try done.
    rewrite Hr1, Hl'. by rewrite <- Permutation_middle.
  - rewrite bool_decide_eq_false_2
      by (apply bool_decide_eq_false_1 in E; lia).
    apply returns_bind, insert_sorted_Priority_returns; simpl;
      [done|by apply Forall_live_alter|].
    intros l' Hl'. eapply returns_mono.
    { apply IH. simpl. apply Forall_app. split; [by apply Forall_live_alter|].
      apply Forall_app. split; [by apply Forall_live_alter|].
      rewrite Hl'. apply Forall_cons. split; [done|by apply Forall_live_alter]. }
    simpl. fold h'. intros r k' (Hr1 & Hr2 & Hh & H3 & Hm). repeat split; try done.
    rewrite Hr2, Hl'. by rewrite <- Permutation_middle.
Qed.

(** The third loop: a thread of L3 goes to the new L2 when its priority
    has reached 50, to the end of the new L3 otherwise. *)
Lemma aging_L3_returns l : ∀ newL2 newL3 k,
  Forall (live (threads k)) (l ++ newL2) →
  returns (aging_L3 l newL2 newL3) k (λ r k',
    r.1 ≡ₚ newL2 ++ (routed 50 (machine k) l (threads k)).1
    ∧ r.2 = newL3 ++ (routed 50 (machine k) l (threads k)).2
    ∧ threads k' = aged (machine k) l (threads k)
    ∧ machine k' = machine k).
Proof.
  induction l as [|t rest IH]; intros newL2 newL3 k Hlive; simpl.
  { apply returns_ret. simpl. by rewrite !app_nil_r. }
  apply Forall_app in Hlive as [Hl Hn]. apply Forall_cons in Hl as [Ht Hrest].
  apply returns_bind, returns_modify.
  apply returns_bind, age_returns; [exact Ht|].
  set (h' := alter (Thread_aging (machine k)) t (threads k)).
  destruct Ht as [th Hth].
  assert (Hth' : h' !! t = Some (Thread_aging (machine k) th))
    by (unfold h'; rewrite lookup_alter_eq, Hth; done).
  apply returns_bind. eapply returns_deref; [exact Hth'|].
  rewrite (priority_of_lookup _ _ _ Hth').
  assert (Ht' : live h' t) by (by eexists).
  destruct (bool_decide (priority (Thread_aging (machine k) th) >= 50)) eqn:E.
  - rewrite bool_decide_eq_true_2
      by (apply bool_decide_eq_true_1 in E; lia).
    apply returns_bind, insert_sorted_Priority_returns; simpl;
      [done|by apply Forall_live_alter|].
    intros l' Hl'. eapply returns_mono.
    { apply IH. simpl. apply Forall_app. split; [by apply Forall_live_alter|].
      rewrite Hl'. apply Forall_cons. split; [done|by apply Forall_live_alter]. }
    simpl. fold h'. intros r k' (Hr1 & Hr2 & Hh & Hm). repeat split; try done.
    rewrite Hr1, Hl'. by rewrite <- Permutation_middle.
  - rewrite bool_decide_eq_false_2
      by (apply bool_decide_eq_false_1 in E; lia).
    eapply returns_mono.
    { apply IH. simpl. apply Forall_app. split; by apply Forall_live_alter. }
    simpl. fold h'. intros r k' (Hr1 & Hr2 & Hh & Hm). repeat split; try done.
    rewrite Hr2. unfold List_Append. by rewrite <- app_assoc.
Qed.

(** Routing neither drops nor duplicates a thread. *)
Lemma routed_perm threshold m l h :
  (routed threshold m l h).1 ++ (routed threshold m l h).2 ≡ₚ l.
Proof.
  revert h. induction l as [|t rest IH]; intros h; simpl; [done|].
  case_bool_decide; simpl.
  - by rewrite IH.
  - by rewrite <- Permutation_middle, IH.
Qed.

Lemma routed_fst_elem threshold m l h x :
  x ∈ (routed threshold m l h).1 → x ∈ l.
Proof.
  intros H. rewrite <- (routed_perm threshold m l h), elem_of_app. tauto.
Qed.

Lemma routed_snd_elem threshold m l h x :
  x ∈ (routed threshold m l h).2 → x ∈ l.
Proof.
  intros H. rewrite <- (routed_perm threshold m l h), elem_of_app. tauto.
Qed.

(** The whole pass, in terms of the routes. *)
Lemma aging_returns k :
  tiers_live k →
  returns aging k (λ _ k',
    let m := machine k in
    let h1 := aged m (L1 k) (threads k) in
    let h2 := aged m (L2 k) h1 in
    L1 k' ≡ₚ L1 k ++ (routed 100 m (L2 k) h1).1
    ∧ L2 k' ≡ₚ (routed 100 m (L2 k) h1).2 ++ (routed 50 m (L3 k) h2).1
    ∧ L3 k' = (routed 50 m (L3 k) h2).2
    ∧ threads k' = aged m (L3 k) h2).
Proof.
  intros Hlive. unfold tiers_live in Hlive.
  apply Forall_app in Hlive as [H1 Hlive]. apply Forall_app in Hlive as [H2 H3].
  unfold aging.
  apply returns_bind, returns_gets.
  apply returns_bind. eapply returns_mono.
  { apply aging_L1_returns. by rewrite app_nil_r. }
  simpl. intros newL1 k1 (Hn1 & Hh1 & HL2 & HL3 & Hm1).
  apply returns_bind, returns_gets.
  apply returns_bind. eapply returns_mono.
  { apply aging_L2_returns. rewrite app_nil_r, HL2, Hh1, Hn1.
    apply Forall_app. split; eapply Forall_impl; eauto; intros q; by rewrite live_aged. }
  simpl. intros [nL1 nL2] k2 (Hr1 & Hr2 & Hh2 & HL3' & Hm2). simpl in *.
  apply returns_bind, returns_gets.
  apply returns_bind. eapply returns_mono.
  { apply aging_L3_returns. rewrite HL3', HL3, Hh2, Hh1, Hr2, HL2, Hm1.
    apply Forall_app. split.
    - eapply Forall_impl; [exact H3|]. intros q. by rewrite !live_aged.
    - apply Forall_forall. intros q Hq. apply routed_snd_elem in Hq.
      rewrite !live_aged. by eapply Forall_forall in H2. }
  simpl. intros [mL2 mL3] k3 (Hq1 & Hq2 & Hh3 & Hm3). simpl in *.
  apply returns_bind, returns_modify.
  apply returns_bind, returns_modify.
  apply returns_modify. simpl.
  rewrite Hh3, Hh2, Hh1, Hm2, Hm1, HL2, HL3', HL3 in *.
  repeat split; try done.
  - by rewrite Hr1, Hn1.
  - by rewrite Hq1, Hr2.
Qed.

(** C9.  With live pointers the aging pass returns, and the rebuilt
    queues hold exactly the threads of the old ones: the total number is
    the same and nothing is dropped or duplicated.  A thread of L1 is in
    the new L1, a thread of L2 is in the new L1 or the new L2; when every
    thread is queued once, a thread of L1 is neither in the new L2 nor in
    the new L3, and a thread of L2 is not in the new L3. *)
Theorem aging_preserves_units (k : Kernel) :
  tiers_live k →
  ∃ k', aging k = Ret tt k'
    ∧ (length (L1 k') + length (L2 k') + length (L3 k')
       = length (L1 k) + length (L2 k) + length (L3 k))%nat
    ∧ L1 k' ++ L2 k' ++ L3 k' ≡ₚ L1 k ++ L2 k ++ L3 k
    ∧ (∀ p, p ∈ L1 k → p ∈ L1 k')
    ∧ (∀ p, p ∈ L2 k → p ∈ L1 k' ∨ p ∈ L2 k')
    ∧ (NoDup (L1 k ++ L2 k ++ L3 k) →
       (∀ p, p ∈ L1 k → (p ∉ L2 k') ∧ (p ∉ L3 k'))
       ∧ (∀ p, p ∈ L2 k → p ∉ L3 k')).
Proof.
  intros Hlive.
  destruct (aging_returns k Hlive) as ([] & k' & Hrun & H1 & H2 & H3 & _).
  cbv zeta in *.
  set (r2 := routed 100 (machine k) (L2 k) (aged (machine k) (L1 k) (threads k))) in *.
  set (r3 := routed 50 (machine k) (L3 k)
               (aged (machine k) (L2 k) (aged (machine k) (L1 k) (threads k)))) in *.
  pose proof (routed_perm 100 (machine k) (L2 k)
                (aged (machine k) (L1 k) (threads k))) as P2.
  pose proof (routed_perm 50 (machine k) (L3 k)
                (aged (machine k) (L2 k) (aged (machine k) (L1 k) (threads k)))) as P3.
  fold r2 in P2. fold r3 in P3.
  assert (Hperm : L1 k' ++ L2 k' ++ L3 k' ≡ₚ L1 k ++ L2 k ++ L3 k).
  { rewrite H1, H2, H3, <- P2, <- P3 at 1.
    rewrite <- !app_assoc. do 2 f_equiv. }
  exists k'. split; [exact Hrun|]. split.
  { apply Permutation_length in Hperm. rewrite !length_app in Hperm. lia. }
  split; [exact Hperm|].
  split; [intros p Hp; rewrite H1, elem_of_app; tauto|].
  split.
  { intros p Hp. rewrite <- P2 in Hp. rewrite H1, H2, !elem_of_app.
    apply elem_of_app in Hp. tauto. }
  intros Hnd.
  apply NoDup_app in Hnd as (_ & Hd12 & Hnd).
  apply NoDup_app in Hnd as (_ & Hd23 & _).
  assert (E2 : ∀ p, p ∈ L2 k' → p ∈ L2 k ∨ p ∈ L3 k).
  { intros p. rewrite H2, <- P2, <- P3, !elem_of_app. tauto. }
  assert (E3 : ∀ p, p ∈ L3 k' → p ∈ L3 k).
  { intros p. rewrite H3, <- P3, elem_of_app. tauto. }
  split.
  - intros p Hp. specialize (Hd12 p Hp). rewrite elem_of_app in Hd12. split.
    + intros Hq. apply E2 in Hq. tauto.
    + intros Hq. apply E3 in Hq. tauto.
  - intros p Hp Hq. apply E3 in Hq. by apply (Hd23 p).
Qed.

(** Aging reaches exactly the threads of the list, once each when the
    list has no repetition. *)
Lemma aged_lookup_notin m l h p : p ∉ l → aged m l h !! p = h !! p.
Proof.
  revert h. induction l as [|t rest IH]; intros h Hp; simpl; [done|].
  apply not_elem_of_cons in Hp as [Hne Hp].
  rewrite IH by done. by rewrite lookup_alter_ne.
Qed.

Lemma aged_lookup_in m l h p :
  NoDup l → p ∈ l → aged m l h !! p = Thread_aging m <$> h !! p.
Proof.
  revert h. induction l as [|t rest IH]; intros h Hnd Hp; simpl.
  { by apply elem_of_nil in Hp. }
  apply NoDup_cons in Hnd as [Ht Hnd].
  apply elem_of_cons in Hp as [->|Hp].
  - rewrite aged_lookup_notin by done. apply lookup_alter_eq.
  - rewrite IH by done. rewrite lookup_alter_ne; [done|]. by intros ->.
Qed.

Lemma priority_of_aged_notin m l h p :
  p ∉ l → priority_of (aged m l h) p = priority_of h p.
Proof. intros Hp. unfold priority_of. by rewrite aged_lookup_notin. Qed.

(** Without repetition the route of a thread is decided by the priority
    it has at the end of the loop. *)
Lemma routed_elem threshold m l h x :
  NoDup l →
  (x ∈ (routed threshold m l h).1
     ↔ x ∈ l ∧ threshold ≤ priority_of (aged m l h) x)
  ∧ (x ∈ (routed threshold m l h).2
     ↔ x ∈ l ∧ ¬ threshold ≤ priority_of (aged m l h) x).
Proof.
  revert h. induction l as [|t rest IH]; intros h Hnd; simpl.
  { split; split; intros H; try destruct H as [H _]; by apply elem_of_nil in H. }
  apply NoDup_cons in Hnd as [Ht Hnd].
  set (h' := alter (Thread_aging m) t h).
  destruct (IH h' Hnd) as [IH1 IH2].
  assert (Hpt : priority_of (aged m rest h') t = priority_of h' t)
    by (by apply priority_of_aged_notin).
  assert (N1 : t ∉ (routed threshold m rest h').1)
    by (intros H; by apply routed_fst_elem in H).
  assert (N2 : t ∉ (routed threshold m rest h').2)
    by (intros H; by apply routed_snd_elem in H).
  case_bool_decide as Hdec; simpl; rewrite !elem_of_cons, ?IH1, ?IH2; split; split.
  all: try (intros [->|[Hx HP]]; [rewrite Hpt; by eauto|by eauto]).
  all: try (intros [[->|Hx] HP]; [rewrite ?Hpt in *; by eauto|by eauto]).
  all: try (intros [Hx HP]; by eauto).
  all: try (intros [[->|Hx] HP]; [rewrite Hpt in HP; done|done]).
Qed.

(** C2.  In a state where every queued thread is live and queued once,
    and where aging leaves the priorities of the threads of L2 and L3 at
    most at 149, the aging pass returns; each queued thread has been aged
    once; a thread of L1 is in the new L1 (and in no other queue) whatever
    its priority; a thread of L2 is in the new L1 exactly when its aged
    priority is in [100,149] and in the new L2 otherwise; a thread of L3
    is in the new L2 exactly when its aged priority is in [50,149] and in
    the new L3 otherwise, and never in the new L1. *)
Theorem aging_promotion (k : Kernel) :
  tiers_live k →
  NoDup (L1 k ++ L2 k ++ L3 k) →
  (∀ p t, p ∈ L2 k ++ L3 k → threads k !! p = Some t →
          priority (Thread_aging (machine k) t) ≤ 149) →
  ∃ k', aging k = Ret tt k'
    ∧ (∀ p t, p ∈ L1 k ++ L2 k ++ L3 k → threads k !! p = Some t →
              threads k' !! p = Some (Thread_aging (machine k) t))
    ∧ (∀ p, p ∈ L1 k → p ∈ L1 k' ∧ (p ∉ L2 k') ∧ (p ∉ L3 k'))
    ∧ (∀ p, p ∈ L2 k →
         (p ∈ L1 k' ↔ 100 ≤ priority_of (threads k') p ≤ 149)
         ∧ (p ∈ L2 k' ↔ ¬ 100 ≤ priority_of (threads k') p ≤ 149)
         ∧ (p ∉ L3 k'))
    ∧ (∀ p, p ∈ L3 k →
         (p ∈ L2 k' ↔ 50 ≤ priority_of (threads k') p ≤ 149)
         ∧ (p ∈ L3 k' ↔ ¬ 50 ≤ priority_of (threads k') p ≤ 149)
         ∧ (p ∉ L1 k')).
Proof.
  intros Hlive Hnd Hbound.
  destruct (aging_returns k Hlive) as ([] & k' & Hrun & H1 & H2 & H3 & Hh).
  cbv zeta in *.
  set (m := machine k) in *.
  set (h1 := aged m (L1 k) (threads k)) in *.
  set (h2 := aged m (L2 k) h1) in *.
  pose proof Hnd as Hnd'.
  apply NoDup_app in Hnd' as (N1 & D1 & Hnd').
  apply NoDup_app in Hnd' as (N2 & D23 & N3).
  assert (D12 : ∀ p, p ∈ L1 k → p ∉ L2 k)
    by (intros p Hp Hq; apply (D1 p Hp), elem_of_app; tauto).
  assert (D13 : ∀ p, p ∈ L1 k → p ∉ L3 k)
    by (intros p Hp Hq; apply (D1 p Hp), elem_of_app; tauto).
  pose proof (λ x, routed_elem 100 m (L2 k) h1 x N2) as R2. fold h2 in R2.
  pose proof (λ x, routed_elem 50 m (L3 k) h2 x N3) as R3. rewrite <- Hh in R3.
  (* every queued thread is aged once *)
  assert (Haged : ∀ p t, p ∈ L1 k ++ L2 k ++ L3 k → threads k !! p = Some t →
                         threads k' !! p = Some (Thread_aging m t)).
  { intros p t Hp Ht. rewrite Hh. rewrite !elem_of_app in Hp.
    destruct Hp as [Hp|[Hp|Hp]].
    - rewrite aged_lookup_notin by auto. unfold h2.
      rewrite aged_lookup_notin by auto. unfold h1.
      rewrite aged_lookup_in by done. by rewrite Ht.
    - rewrite aged_lookup_notin by auto. unfold h2.
      rewrite aged_lookup_in by done. unfold h1.
      rewrite aged_lookup_notin by (intros Hq; by apply (D12 p)). by rewrite Ht.
    - rewrite aged_lookup_in by done. unfold h2.
      rewrite aged_lookup_notin by (intros Hq; by apply (D23 p)). unfold h1.
      rewrite aged_lookup_notin by (intros Hq; by apply (D13 p)). by rewrite Ht. }
  (* the priority bound, on the final store *)
  assert (Hle : ∀ p, p ∈ L2 k ++ L3 k → priority_of (threads k') p ≤ 149).
  { intros p Hp.
    assert (Hq : p ∈ L1 k ++ L2 k ++ L3 k) by (rewrite elem_of_app; tauto).
    unfold tiers_live in Hlive.
    destruct (proj1 (Forall_forall _ _) Hlive p Hq) as [t Ht].
    rewrite (priority_of_lookup _ _ _ (Haged p t Hq Ht)). by eapply Hbound. }
  (* the store read by the second loop agrees with the final one on L2 *)
  assert (Hp2 : ∀ p, p ∈ L2 k → priority_of h2 p = priority_of (threads k') p).
  { intros p Hp. rewrite Hh. symmetry. apply priority_of_aged_notin. auto. }
  exists k'. split; [exact Hrun|]. split; [exact Haged|].
  split; [|split].
  - intros p Hp. split; [rewrite H1, elem_of_app; tauto|]. split.
    + rewrite H2, elem_of_app. intros [Hq|Hq].
      * apply routed_snd_elem in Hq. by apply (D12 p).
      * apply routed_fst_elem in Hq. by apply (D13 p).
    + rewrite H3. intros Hq. apply routed_snd_elem in Hq. by apply (D13 p).
  - intros p Hp.
    assert (Hn1 : p ∉ L1 k) by (intros Hq; by apply (D12 p)).
    assert (Hn3 : p ∉ L3 k) by auto.
    specialize (Hle p (proj2 (elem_of_app _ _ _) (or_introl Hp))).
    destruct (R2 p) as [Ra Rb]. rewrite (Hp2 p Hp) in Ra, Rb.
    split; [|split].
    + rewrite H1, elem_of_app, Ra. split; [intros [?|[_ ?]]; [done|lia]|].
      intros [? _]. by right.
    + rewrite H2, elem_of_app, Rb. split.
      * intros [[_ ?]|Hq]; [lia|]. apply routed_fst_elem in Hq. done.
      * intros Hn. left. split; [done|lia].
    + rewrite H3. intros Hq. by apply routed_snd_elem in Hq.
  - intros p Hp.
    assert (Hn1 : p ∉ L1 k) by (intros Hq; by apply (D13 p)).
    assert (Hn2 : p ∉ L2 k) by (intros Hq; by apply (D23 p)).
    specialize (Hle p (proj2 (elem_of_app _ _ _) (or_intror Hp))).
    destruct (R3 p) as [Ra Rb].
    split; [|split].
    + rewrite H2, elem_of_app, Ra. split.
      * intros [Hq|[_ ?]]; [|lia]. by apply routed_snd_elem in Hq.
      * intros [? _]. by right.
    + rewrite H3, Rb. split; [intros [_ ?]; lia|]. intros Hn. split; [done|lia].
    + rewrite H1, elem_of_app. intros [Hq|Hq]; [done|].
      by apply routed_fst_elem in Hq.
Qed.

(** ** Positions in a queue *)

Lemma precedes_elem a b l : precedes a b l → a ∈ l ∧ b ∈ l.
Proof.
  induction l as [|x l IH]; simpl; [done|].
  intros [[-> Hb]|H].
  - split; [apply list_elem_of_here|by apply list_elem_of_further].
  - destruct (IH H). split; by apply list_elem_of_further.
Qed.

Lemma precedes_app a b l1 l2 :
  precedes a b (l1 ++ l2)
  ↔ precedes a b l1 ∨ (a ∈ l1 ∧ b ∈ l2) ∨ precedes a b l2.
Proof.
  induction l1 as [|x l1 IH]; simpl.
  - split; [tauto|]. intros [[]|[[H _]|H]]; [by apply elem_of_nil in H|done].
  - rewrite IH, elem_of_app, elem_of_cons. split.
    + intros [[-> [Hb|Hb]]|[H|[[Ha Hb]|H]]]; tauto.
    + intros [[[-> Hb]|H]|[[[->|Ha] Hb]|H]]; tauto.
Qed.

Lemma precedes_irrefl a l : NoDup l → ¬ precedes a a l.
Proof.
  induction 1 as [|x l Hx Hnd IH]; simpl; [tauto|].
  intros [[-> Ha]|H]; tauto.
Qed.

Lemma precedes_asym a b l : NoDup l → precedes a b l → ¬ precedes b a l.
Proof.
  induction 1 as [|x l Hx Hnd IH]; simpl; [tauto|].
  intros [[-> Hb]|Hab] [[Heq Ha]|Hba].
  - by subst.
  - apply precedes_elem in Hba as [_ Ha]. done.
  - subst. apply precedes_elem in Hab as [_ Hb]. done.
  - by apply IH.
Qed.

Lemma precedes_total a b l :
  a ∈ l → b ∈ l → a ≠ b → precedes a b l ∨ precedes b a l.
Proof.
  induction l as [|x l IH]; intros Ha Hb Hne; [by apply elem_of_nil in Ha|].
  simpl. apply elem_of_cons in Ha as [->|Ha]; apply elem_of_cons in Hb as [->|Hb].
  - done.
  - left. by left.
  - right. by left.
  - destruct (IH Ha Hb Hne); tauto.
Qed.

(** ** Sorted insertion on a total key *)

Lemma elem_of_insert_by key t l x : x ∈ insert_by key t l ↔ x = t ∨ x ∈ l.
Proof.
  induction l as [|y l IH]; simpl.
  - rewrite list_elem_of_singleton. split; [tauto|].
    intros [?|H]; [done|by apply elem_of_nil in H].
  - case_bool_decide; rewrite !elem_of_cons, ?IH; tauto.
Qed.

Lemma NoDup_insert_by key t l : t ∉ l → NoDup l → NoDup (insert_by key t l).
Proof.
  induction l as [|y l IH]; simpl; intros Ht Hnd.
  - apply NoDup_singleton.
  - case_bool_decide; [by apply NoDup_cons|].
    apply NoDup_cons in Hnd as [Hy Hnd]. apply not_elem_of_cons in Ht as [Hne Ht].
    apply NoDup_cons. split; [|by apply IH].
    rewrite elem_of_insert_by. intros [->|?]; done.
Qed.

(** Where the new item stands in a sorted queue: behind the threads whose
    key is not greater, in front of those whose key is greater; the others
    keep their relative positions. *)
Lemma precedes_insert_by key t l a b :
  (∀ x y, precedes x y l → key x ≤ key y) →
  precedes a b (insert_by key t l)
  ↔ precedes a b l
    ∨ (a ∈ l ∧ b = t ∧ key a ≤ key t)
    ∨ (a = t ∧ b ∈ l ∧ key t < key b).
Proof.
  induction l as [|x l IH]; intros Hsorted; simpl.
  - split.
    + intros [[_ H]|[]]. by apply elem_of_nil in H.
    + intros [[]|[[H _]|[_ [H _]]]]; by apply elem_of_nil in H.
  - assert (Hx : ∀ y, y ∈ l → key x ≤ key y)
      by (intros y Hy; apply Hsorted; simpl; by left).
    assert (Hl : ∀ y z, precedes y z l → key y ≤ key z)
      by (intros y z Hyz; apply Hsorted; simpl; by right).
    case_bool_decide as Hlt; simpl.
    + rewrite !elem_of_cons. split.
      * intros [[<- [->|Hb]]|H]; [right; right; by eauto|right; right|by left].
        split; [done|]. split; [by right|]. specialize (Hx b Hb). lia.
      * intros [H|[[[->|Ha] [-> Hle]]|[-> [[->|Hb] Hk]]]];
          [by right|lia|specialize (Hx a Ha); lia|left; by eauto|left; by eauto].
    + rewrite (IH Hl), elem_of_insert_by, !elem_of_cons. split.
      * intros [[-> [->|Hb]]|[H|[[Ha [-> Hle]]|[-> [Hb Hk]]]]].
        -- right; left. split; [by left|]. split; [done|lia].
        -- left. by left.
        -- left. by right.
        -- right; left. split; [by right|done].
        -- right; right. split; [done|]. split; [by right|done].
      * intros [[[-> Hb]|H]|[[[->|Ha] [-> Hle]]|[-> [[->|Hb] Hk]]]].
        -- left. split; [done|by right].
        -- right. by left.
        -- left. split; [done|by left].
        -- right. right. left. by eauto.
        -- lia.
        -- right. right. right. by eauto.
Qed.

Lemma before_le key adm a b : before key adm a b → key a ≤ key b.
Proof. intros [?|[? _]]; lia. Qed.

(** Admission into another queue leaves the order of this one intact. *)
Lemma queue_ordered_skip key adm q t :
  t ∉ adm → queue_ordered key adm q → queue_ordered key (adm ++ [t]) q.
Proof.
  intros Ht (Hnd & Hsub & Hord). split; [done|]. split.
  { intros x Hx. apply elem_of_app. left. by apply Hsub. }
  intros a b Ha Hb. rewrite (Hord a b Ha Hb). unfold before.
  rewrite precedes_app. simpl.
  assert (b ≠ t) by (intros ->; by apply Ht, Hsub).
  split; [tauto|]. intros [?|[? [?|[[_ Hbt]|[[_ H']|[]]]]]]; try tauto.
  - apply list_elem_of_singleton in Hbt. done.
  - by apply elem_of_nil in H'.
Qed.

(** Admission into this queue puts the new thread at its place. *)
Lemma queue_ordered_insert key adm q t :
  t ∉ adm → queue_ordered key adm q →
  queue_ordered key (adm ++ [t]) (insert_by key t q).
Proof.
  intros Ht (Hnd & Hsub & Hord).
  assert (Htq : t ∉ q) by (intros H; by apply Ht, Hsub).
  assert (Hsorted : ∀ x y, precedes x y q → key x ≤ key y).
  { intros x y Hxy. destruct (precedes_elem _ _ _ Hxy) as [Hx Hy].
    eapply before_le. by apply Hord. }
  split; [by apply NoDup_insert_by|]. split.
  { intros x. rewrite elem_of_insert_by, elem_of_app, list_elem_of_singleton.
    intros [->|Hx]; [by right|left; by apply Hsub]. }
  intros a b. rewrite !elem_of_insert_by, (precedes_insert_by _ _ _ _ _ Hsorted).
  unfold before. rewrite precedes_app. simpl. rewrite list_elem_of_singleton.
  intros [->|Ha] [->|Hb].
  - split.
    + intros [H|[[H _]|[_ [H _]]]]; [apply precedes_elem in H as [H _]|..]; done.
    + intros [?|[_ [H|[[H _]|[[_ H]|[]]]]]]; [lia|..].
      * apply precedes_elem in H as [H _]. by apply Ht in H.
      * by apply Ht in H.
      * by apply elem_of_nil in H.
  - split.
    + intros [H|[[_ [-> _]]|[_ [_ Hk]]]]; [|done|by left].
      apply precedes_elem in H as [H _]. done.
    + intros [?|[Hk [H|[[H _]|[[_ H]|[]]]]]]; [by eauto| | |].
      * apply precedes_elem in H as [H _]. by apply Ht in H.
      * by apply Ht in H.
      * by apply elem_of_nil in H.
  - split.
    + intros [H|[[_ [_ Hk]]|[-> _]]]; [| |done].
      * apply precedes_elem in H as [_ H]. done.
      * destruct (decide (key a = key t)) as [Heq|Hne]; [right|left; lia].
        split; [done|]. right. left. split; [by apply Hsub|done].
    + intros Hbef. right. left. split; [done|]. split; [done|].
      destruct Hbef as [?|[? _]]; lia.
  - assert (b ≠ t) by (by intros ->).
    assert (a ≠ t) by (by intros ->).
    rewrite (Hord a b Ha Hb). unfold before. split.
    + intros [[?|[? ?]]|[[_ [? _]]|[? _]]]; try done; [by left|right; by eauto].
    + intros [?|[? [?|[[_ ?]|[[_ H']|[]]]]]]; try done.
      * left. by left.
      * left. right. by eauto.
      * by apply elem_of_nil in H'.
Qed.

Lemma insert_by_perm key t l : insert_by key t l ≡ₚ t :: l.
Proof.
  induction l as [|x l IH]; simpl; [done|].
  case_bool_decide; [done|]. rewrite IH. apply Permutation_swap.
Qed.

Lemma insert_by_ext key key' t l :
  (∀ p, key' p = key p) → insert_by key' t l = insert_by key t l.
Proof.
  intros Hk. induction l as [|x l IH]; simpl; [done|]. by rewrite IH, !Hk.
Qed.

Lemma queue_ordered_ext key key' adm q :
  (∀ p, key' p = key p) → queue_ordered key adm q → queue_ordered key' adm q.
Proof.
  intros Hk (Hnd & Hsub & Hord). split; [done|]. split; [done|].
  intros a b Ha Hb. rewrite (Hord a b Ha Hb). unfold before. by rewrite !Hk.
Qed.

(** ** The comparators decide by the keys *)

Lemma SortedList_Insert_pure compare key item l :
  Forall (λ x, ∃ c, compare item x = Some c ∧ (c < 0 ↔ key item < key x)) l →
  SortedList_Insert compare item l = Some (insert_by key item l).
Proof.
  induction 1 as [|x l (c & Hc & Hlt) _ IH]; simpl; [done|].
  rewrite Hc. simpl. rewrite IH. simpl.
  destruct (decide (c < 0)) as [Hneg|Hpos].
  - by rewrite !bool_decide_eq_true_2 by tauto.
  - by rewrite !bool_decide_eq_false_2 by tauto.
Qed.

Lemma SJFCompare_key h a b :
  live h a → live h b →
  ∃ c, SJFCompare h a b = Some c ∧ (c < 0 ↔ remaining_of h a < remaining_of h b).
Proof.
  intros [ta Ha] [tb Hb]. unfold SJFCompare, remaining_of. rewrite Ha, Hb. simpl.
  eexists. split; [reflexivity|]. unfold SJFCompare_obj, remaining.
  repeat case_bool_decide; lia.
Qed.

Lemma PriorityCompare_key h a b :
  live h a → live h b →
  ∃ c, PriorityCompare h a b = Some c ∧ (c < 0 ↔ priority_of h a < priority_of h b).
Proof.
  intros [ta Ha] [tb Hb]. unfold PriorityCompare, priority_of. rewrite Ha, Hb. simpl.
  eexists. split; [reflexivity|]. unfold PriorityCompare_obj.
  repeat case_bool_decide; lia.
Qed.

Lemma SJF_Insert_pure h item l :
  live h item → Forall (live h) l →
  SortedList_Insert (SJFCompare h) item l = Some (insert_by (remaining_of h) item l).
Proof.
  intros Hi Hl. apply SortedList_Insert_pure.
  eapply Forall_impl; [exact Hl|]. intros x Hx. by apply SJFCompare_key.
Qed.

Lemma Priority_Insert_pure h item l :
  live h item → Forall (live h) l →
  SortedList_Insert (PriorityCompare h) item l = Some (insert_by (priority_of h) item l).
Proof.
  intros Hi Hl. apply SortedList_Insert_pure.
  eapply Forall_impl; [exact Hl|]. intros x Hx. by apply PriorityCompare_key.
Qed.

(** [setStatus] changes neither key. *)
Lemma remaining_of_setStatus h p st t q :
  h !! p = Some t → remaining_of (<[p := setStatus st t]> h) q = remaining_of h q.
Proof.
  intros Hp. unfold remaining_of. destruct (decide (p = q)) as [<-|Hne].
  - by rewrite lookup_insert_eq, Hp.
  - by rewrite lookup_insert_ne.
Qed.

Lemma priority_of_setStatus h p st t q :
  h !! p = Some t → priority_of (<[p := setStatus st t]> h) q = priority_of h q.
Proof.
  intros Hp. unfold priority_of. destruct (decide (p = q)) as [<-|Hne].
  - by rewrite lookup_insert_eq, Hp.
  - by rewrite lookup_insert_ne.
Qed.

(** ** Sequences of admissions and of selections *)

(** One admission of a thread with a priority in [0,149]. *)
Lemma ReadyToRun_admits k thread t :
  level k = IntOff → threads k !! thread = Some t →
  0 ≤ priority t ≤ 149 → tiers_live k →
  ∃ k', ReadyToRun thread k = Ret tt k'
    ∧ level k' = IntOff
    ∧ threads k' = <[thread := setStatus READY t]> (threads k)
    ∧ L1 k' = (if bool_decide (100 ≤ priority t)
               then insert_by (remaining_of (threads k)) thread (L1 k) else L1 k)
    ∧ L2 k' = (if bool_decide (50 ≤ priority t ≤ 99)
               then insert_by (priority_of (threads k)) thread (L2 k) else L2 k)
    ∧ L3 k' = (if bool_decide (priority t ≤ 49) then L3 k ++ [thread] else L3 k).
Proof.
  intros Hl Ht Hp Hlive.
  rewrite (ReadyToRun_unfold _ _ _ Hl Ht). cbv zeta.
  set (h1 := <[thread := setStatus READY t]> (threads k)).
  assert (Hthr : live h1 thread) by (unfold live, h1; rewrite lookup_insert_eq; eauto).
  assert (Hall : Forall (live h1) (L1 k ++ L2 k ++ L3 k))
    by (apply Forall_live_insert, Hlive).
  apply Forall_app in Hall as [H1 Hall]. apply Forall_app in Hall as [H2 _].
  rewrite L1_Insert_unfold, L2_Insert_unfold. simpl. fold h1.
  rewrite (SJF_Insert_pure h1 thread (L1 k) Hthr H1).
  rewrite (Priority_Insert_pure h1 thread (L2 k) Hthr H2).
  rewrite (insert_by_ext (remaining_of (threads k)) (remaining_of h1))
    by (intros q; by apply remaining_of_setStatus).
  rewrite (insert_by_ext (priority_of (threads k)) (priority_of h1))
    by (intros q; by apply priority_of_setStatus).
  unfold L3_Append, modify, List_Append.
  repeat case_bool_decide; try lia; eexists; (split; [reflexivity|]); by simpl.
Qed.

Lemma admit_all_ordered rest : ∀ admitted k,
  level k = IntOff →
  tiers_live k →
  NoDup (admitted ++ rest) →
  Forall (λ p, ∃ t, threads k !! p = Some t ∧ 0 ≤ priority t ≤ 149) rest →
  L1 k ++ L2 k ++ L3 k ≡ₚ admitted →
  queue_ordered (remaining_of (threads k)) admitted (L1 k) →
  queue_ordered (priority_of (threads k)) admitted (L2 k) →
  ∃ k', admit_all rest k = Ret tt k'
    ∧ level k' = IntOff
    ∧ L1 k' ++ L2 k' ++ L3 k' ≡ₚ admitted ++ rest
    ∧ queue_ordered (remaining_of (threads k')) (admitted ++ rest) (L1 k')
    ∧ queue_ordered (priority_of (threads k')) (admitted ++ rest) (L2 k').
Proof.
  induction rest as [|t rest IH]; intros admitted k Hl Hlive Hnd Hrest Hperm HQ1 HQ2.
  { exists k. rewrite app_nil_r. by simpl. }
  apply Forall_cons in Hrest as [(th & Hth & Hprio) Hrest].
  assert (Htadm : t ∉ admitted).
  { apply NoDup_app in Hnd as (_ & Hd & _). intros Ht. apply (Hd t Ht). left. }
  destruct (ReadyToRun_admits k t th Hl Hth Hprio Hlive)
    as (k1 & Hrun & Hl1 & Hh1 & HL1 & HL2 & HL3).
  simpl. rewrite Hrun.
  assert (Hkeys1 : ∀ p, remaining_of (threads k1) p = remaining_of (threads k) p)
    by (intros p; rewrite Hh1; by apply remaining_of_setStatus).
  assert (Hkeys2 : ∀ p, priority_of (threads k1) p = priority_of (threads k) p)
    by (intros p; rewrite Hh1; by apply priority_of_setStatus).
  assert (Hperm1 : L1 k1 ++ L2 k1 ++ L3 k1 ≡ₚ admitted ++ [t]).
  { transitivity (t :: L1 k ++ L2 k ++ L3 k);
      [|rewrite Hperm; apply Permutation_cons_append].
    rewrite HL1, HL2, HL3.
    repeat case_bool_decide; try lia; rewrite ?insert_by_perm; simpl; try done;
      first [ symmetry; apply Permutation_middle
            | rewrite !app_assoc; symmetry; apply Permutation_cons_append ]. }
  destruct (IH (admitted ++ [t]) k1) as (k' & Hall & Hl' & Hperm' & HQ1' & HQ2').
  - done.
  - unfold tiers_live. rewrite Hperm1, Hh1. apply Forall_app. split.
    + apply Forall_live_insert. unfold tiers_live in Hlive. by rewrite Hperm in Hlive.
    + apply Forall_singleton. unfold live. rewrite lookup_insert_eq. eauto.
  - by rewrite <- app_assoc.
  - eapply Forall_impl; [exact Hrest|]. intros p (tp & Htp & Hp). rewrite Hh1.
    destruct (decide (t = p)) as [->|Hne].
    + rewrite lookup_insert_eq. eexists. split; [done|]. simpl.
      rewrite Hth in Htp. by injection Htp as ->.
    + rewrite lookup_insert_ne by done. eauto.
  - done.
  - apply (queue_ordered_ext (remaining_of (threads k))); [done|]. rewrite HL1.
    destruct (bool_decide (100 ≤ priority th));
      [by apply queue_ordered_insert|by apply queue_ordered_skip].
  - apply (queue_ordered_ext (priority_of (threads k))); [done|]. rewrite HL2.
    destruct (bool_decide (50 ≤ priority th ≤ 99));
      [by apply queue_ordered_insert|by apply queue_ordered_skip].
  - exists k'. rewrite <- app_assoc in Hperm', HQ1', HQ2'. by simpl in *.
Qed.

(** Selecting until NULL returns the threads of L1, then those of L2,
    then those of L3, each queue from front to back. *)
Lemma select_all_drains n : ∀ k,
  level k = IntOff →
  (length (L1 k) + length (L2 k) + length (L3 k) ≤ n)%nat →
  ∃ k', select_all n k = Ret (L1 k ++ L2 k ++ L3 k) k'
        ∧ L1 k' = [] ∧ L2 k' = [] ∧ L3 k' = [] ∧ threads k' = threads k.
Proof.
  induction n as [|n IH]; intros k Hl Hlen; simpl.
  { exists k. destruct (L1 k), (L2 k), (L3 k); simpl in *; try lia. done. }
  rewrite (FindNextToRun_unfold k Hl).
  destruct (L1 k) as [|a l1] eqn:E1; [destruct (L2 k) as [|b l2] eqn:E2;
    [destruct (L3 k) as [|c l3] eqn:E3|]|]; simpl in *.
  - by exists k.
  - destruct (IH (set_L3 l3 k)) as (k' & Hsel & ? & ? & ? & ?);
      [done|simpl; rewrite E1, E2; simpl; lia|].
    simpl in Hsel. rewrite E1, E2 in Hsel. simpl in Hsel. rewrite Hsel. by exists k'.
  - destruct (IH (set_L2 l2 k)) as (k' & Hsel & ? & ? & ? & ?);
      [done|simpl; rewrite E1; simpl; lia|].
    simpl in Hsel. rewrite E1 in Hsel. simpl in Hsel. rewrite Hsel. by exists k'.
  - destruct (IH (set_L1 l1 k)) as (k' & Hsel & ? & ? & ? & ?);
      [done|simpl; lia|].
    simpl in Hsel. rewrite Hsel. by exists k'.
Qed.

(** X24.  Admit distinct live threads with priorities in [0,149] to a
    scheduler with empty queues, in the order of the list [adm], and then
    select until NULL, with no preemption check and no aging pass in
    between.  Of two threads of L1, [a] is returned before [b]
    exactly when the remaining work of [a] is smaller, or equal with [a]
    admitted earlier; of two threads of L2, exactly when the priority
    value of [a] is smaller, or equal with [a] admitted earlier. *)
Theorem ordered_queues_tie_break (k : Kernel) (adm : list ThreadPtr) :
  level k = IntOff →
  L1 k = [] → L2 k = [] → L3 k = [] →
  NoDup adm →
  Forall (λ p, ∃ t, threads k !! p = Some t ∧ 0 ≤ priority t ≤ 149) adm →
  ∃ k' order k'',
    admit_all adm k = Ret tt k'
    ∧ select_all (length adm) k' = Ret order k''
    ∧ (∀ a b, a ∈ L1 k' → b ∈ L1 k' →
         (precedes a b order
          ↔ remaining_of (threads k') a < remaining_of (threads k') b
            ∨ (remaining_of (threads k') a = remaining_of (threads k') b
               ∧ precedes a b adm)))
    ∧ (∀ a b, a ∈ L2 k' → b ∈ L2 k' →
         (precedes a b order
          ↔ priority_of (threads k') a < priority_of (threads k') b
            ∨ (priority_of (threads k') a = priority_of (threads k') b
               ∧ precedes a b adm))).
Proof.
  intros Hl E1 E2 E3 Hnd Hadm.
  destruct (admit_all_ordered adm [] k) as (k' & Hall & Hl' & Hperm & HQ1 & HQ2).
  - done.
  - unfold tiers_live. rewrite E1, E2, E3. constructor.
  - done.
  - done.
  - by rewrite E1, E2, E3.
  - rewrite E1. split; [constructor|].
    split; [intros x H|intros a b H]; by apply elem_of_nil in H.
  - rewrite E2. split; [constructor|].
    split; [intros x H|intros a b H]; by apply elem_of_nil in H.
  - simpl in *.
    destruct (select_all_drains (length adm) k' Hl') as (k'' & Hsel & _).
    { apply Permutation_length in Hperm. rewrite !length_app in Hperm. lia. }
    exists k', (L1 k' ++ L2 k' ++ L3 k'), k''.
    split; [done|]. split; [done|].
    assert (Hnd' : NoDup (L1 k' ++ L2 k' ++ L3 k')) by (by rewrite Hperm).
    apply NoDup_app in Hnd' as (_ & D1 & Hnd').
    apply NoDup_app in Hnd' as (_ & D2 & _).
    destruct HQ1 as (_ & _ & HQ1). destruct HQ2 as (_ & _ & HQ2).
    split.
    + intros a b Ha Hb. rewrite <- (HQ1 a b Ha Hb), precedes_app. split; [|tauto].
      intros [?|[[_ H]|H]]; [done|by apply D1 in H|].
      apply precedes_elem in H as [H _]. by apply D1 in H.
    + intros a b Ha Hb. rewrite <- (HQ2 a b Ha Hb), !precedes_app.
      assert (Ha' : a ∈ L2 k' ++ L3 k') by (apply elem_of_app; tauto).
      assert (Hb' : b ∈ L2 k' ++ L3 k') by (apply elem_of_app; tauto).
      split; [|tauto].
      intros [H|[[H _]|[?|[[_ H]|H]]]]; try done.
      * apply precedes_elem in H as [H _]. by apply D1 in H.
      * by apply D1 in H.
      * by apply D2 in H.
      * apply precedes_elem in H as [H _]. by apply D2 in H.
Qed.

End Properties.

(** * Further properties of the scheduler *)

Section Further.
Context `{Ext : Collaborators}.

(** ** The comparators *)

(** X1.  [SJFCompare] is a three-way comparison of the remaining work: it
    answers -1, 0 or 1 as the remaining work of the first thread is
    smaller than, equal to or greater than that of the second; swapping
    the arguments negates the answer; and "not greater" is transitive. *)
Theorem SJFCompare_three_way (a b c : Thread) :
  (SJFCompare_obj a b = -1 ↔ remaining a < remaining b)
  ∧ (SJFCompare_obj a b = 0 ↔ remaining a = remaining b)
  ∧ (SJFCompare_obj a b = 1 ↔ remaining a > remaining b)
  ∧ SJFCompare_obj b a = - SJFCompare_obj a b
  ∧ (SJFCompare_obj a b ≤ 0 → SJFCompare_obj b c ≤ 0 → SJFCompare_obj a c ≤ 0).
Proof.
  unfold SJFCompare_obj, remaining.
  repeat split; repeat case_bool_decide; lia.
Qed.

(** X2.  [PriorityCompare] is a three-way comparison of the priority
    values, smaller value first, with the same laws. *)
Theorem PriorityCompare_three_way (a b c : Thread) :
  (PriorityCompare_obj a b = -1 ↔ priority a < priority b)
  ∧ (PriorityCompare_obj a b = 0 ↔ priority a = priority b)
  ∧ (PriorityCompare_obj a b = 1 ↔ priority a > priority b)
  ∧ PriorityCompare_obj b a = - PriorityCompare_obj a b
  ∧ (PriorityCompare_obj a b ≤ 0 → PriorityCompare_obj b c ≤ 0 →
     PriorityCompare_obj a c ≤ 0).
Proof.
  unfold PriorityCompare_obj.
  repeat split; repeat case_bool_decide; lia.
Qed.

(** ** Violated preconditions *)

(** X3.  With interrupts on, [ReadyToRun], [FindNextToRun] and both
    halves of [Run] abort at their first [ASSERT], in the state they were
    called in: no status is set, no queue is touched, nothing is staged
    or destroyed. *)
Theorem interrupts_on_abort (k : Kernel) (t : ThreadPtr) (finishing : bool) :
  level k ≠ IntOff →
  ReadyToRun t k = Fatal k
  ∧ FindNextToRun k = Fatal k
  ∧ Run_dispatch t finishing k = Fatal k
  ∧ Run_resume t k = Fatal k.
Proof.
  intros Hl. split; [by apply ReadyToRun_interrupts_on|].
  unfold FindNextToRun, Run_dispatch, Run_resume, bind, gets, ASSERT, interrupts_off.
  simpl. by rewrite bool_decide_eq_false_2.
Qed.

(** ** Sorted queues *)

Lemma ascending_ext key key' l :
  (∀ p, p ∈ l → key' p = key p) → ascending key l → ascending key' l.
Proof.
  induction l as [|x l IH]; simpl; [done|]. intros Hk [Hx Hl]. split.
  - apply Forall_forall. intros y Hy.
    rewrite (Hk x) by left. rewrite (Hk y) by (by right).
    by eapply Forall_forall in Hx.
  - apply IH; [|done]. intros p Hp. apply Hk. by right.
Qed.

Lemma ascending_insert_by key t l :
  ascending key l → ascending key (insert_by key t l).
Proof.
  induction l as [|x l IH]; simpl; intros Hasc.
  { split; [constructor|done]. }
  destruct Hasc as [Hx Hl]. case_bool_decide as Hlt; simpl.
  - split; [|done]. apply Forall_cons. split; [lia|].
    eapply Forall_impl; [exact Hx|]. intros y Hy. simpl in Hy. lia.
  - split; [|by apply IH]. apply Forall_forall. intros y Hy.
    apply elem_of_insert_by in Hy as [->|Hy]; [lia|].
    by eapply Forall_forall in Hx.
Qed.

Lemma ascending_head_least key x l y :
  ascending key (x :: l) → y ∈ x :: l → key x ≤ key y.
Proof.
  intros [Hx _] Hy. apply elem_of_cons in Hy as [->|Hy]; [lia|].
  by eapply Forall_forall in Hx.
Qed.

(** ** The preemption check, as the code computes it *)

(** X4.  With live pointers [checkPreemptive] returns, and its answer is
    [true] exactly when L1 is not empty and the estimated burst time of
    its head is smaller than that of the running thread; the consumed
    time of neither thread and the contents of L2 and L3 play no part. *)
Theorem checkPreemptive_answer (k : Kernel) :
  tiers_live k →
  live (threads k) (currentThread k) →
  ∃ b k', checkPreemptive k = Ret b k'
    ∧ (b = true ↔
       ∃ first rest, L1 k = first :: rest
         ∧ approx_of (threads k) first < approx_of (threads k) (currentThread k)).
Proof.
  intros Hlive [tn Hn].
  destruct (L1 k) as [|first rest] eqn:HL.
  { exists false, k. rewrite (checkPreemptive_empty k HL).
    split; [done|]. split; [done|]. by intros (? & ? & ? & _). }
  unfold tiers_live in Hlive. rewrite HL in Hlive.
  apply Forall_app in Hlive as [H1 _]. apply Forall_cons in H1 as [Hf Hrest].
  pose proof Hf as [tf Htf].
  destruct (SJF_Insert_defined _ _ _ Hf Hrest) as [l Hl].
  eexists _, _. split; [by eapply checkPreemptive_unfold|].
  unfold approx_of. rewrite Hn. simpl. split.
  - intros Hb. apply bool_decide_eq_true_1 in Hb.
    exists first, rest. rewrite Htf. by simpl.
  - intros (f & r & [= <- <-] & Hlt). rewrite Htf in Hlt.
    by apply bool_decide_eq_true_2.
Qed.

(** X5.  Whatever [checkPreemptive] ends with, L1 holds the same threads
    as before, as many times each, and L2, L3, every thread object, the
    destruction slot and the running thread are untouched. *)
Theorem checkPreemptive_footprint (k k' : Kernel) :
  final_state (checkPreemptive k) = Some k' →
  L1 k' ≡ₚ L1 k ∧ L2 k' = L2 k ∧ L3 k' = L3 k ∧ threads k' = threads k
  ∧ toBeDestroyed k' = toBeDestroyed k ∧ currentThread k' = currentThread k.
Proof. apply checkPreemptive_frame. Qed.

(** X6.  When no thread is queued twice in L1, [checkPreemptive] leaves
    the order of L1 as it was exactly when L1 has fewer than two threads
    or the remaining work of its head is smaller than that of the second
    thread; otherwise the head moves behind the second. *)
Theorem checkPreemptive_order (k : Kernel) :
  tiers_live k →
  live (threads k) (currentThread k) →
  NoDup (L1 k) →
  ∃ b k', checkPreemptive k = Ret b k'
    ∧ (L1 k' = L1 k ↔
       match L1 k with
       | first :: second :: _ =>
           remaining_of (threads k) first < remaining_of (threads k) second
       | _ => True
       end)
    ∧ (∀ first second rest, L1 k = first :: second :: rest →
         ¬ remaining_of (threads k) first < remaining_of (threads k) second →
         head (L1 k') = Some second).
Proof.
  intros Hlive [tn Hn] Hnd.
  destruct (L1 k) as [|first rest] eqn:HL.
  { exists false, k. rewrite (checkPreemptive_empty k HL), HL. by repeat split. }
  unfold tiers_live in Hlive. rewrite HL in Hlive.
  apply Forall_app in Hlive as [H1 _]. apply Forall_cons in H1 as [Hf Hrest].
  pose proof Hf as [tf Htf].
  pose proof (SJF_Insert_pure _ _ _ Hf Hrest) as Hins.
  eexists _, _. split; [by eapply checkPreemptive_unfold|]. simpl.
  destruct rest as [|second rest]; simpl; [by repeat split|].
  apply NoDup_cons in Hnd as [Hne _]. apply not_elem_of_cons in Hne as [Hne _].
  case_bool_decide as Hlt; split.
  - done.
  - intros f s r [= <- <- <-] Hn'. done.
  - split; [|done]. intros [= Heq _]. by symmetry in Heq.
  - intros f s r [= <- <- <-] _. done.
Qed.

(** X7.  Sorted queues stay sorted: when L1 is in ascending order of the
    remaining work and L2 in ascending order of the priority value, they
    still are after every [ReadyToRun], [FindNextToRun] and
    [checkPreemptive] that returns. *)
Theorem queues_stay_sorted (k : Kernel) :
  tiers_live k →
  ascending (remaining_of (threads k)) (L1 k) →
  ascending (priority_of (threads k)) (L2 k) →
  (∀ t k', ReadyToRun t k = Ret tt k' →
     ascending (remaining_of (threads k')) (L1 k')
     ∧ ascending (priority_of (threads k')) (L2 k'))
  ∧ (∀ r k', FindNextToRun k = Ret r k' →
     ascending (remaining_of (threads k')) (L1 k')
     ∧ ascending (priority_of (threads k')) (L2 k'))
  ∧ (∀ b k', checkPreemptive k = Ret b k' →
     ascending (remaining_of (threads k')) (L1 k')
     ∧ ascending (priority_of (threads k')) (L2 k')).
Proof.
  intros Hlive HA1 HA2. split; [|split].
  - intros t k' Hrun.
    destruct (decide (level k = IntOff)) as [Hl|Hl];
      [|by rewrite ReadyToRun_interrupts_on in Hrun].
    destruct (threads k !! t) as [th|] eqn:Hth; cycle 1.
    { unfold ReadyToRun, bind, ASSERT, interrupts_off, update in Hrun.
      rewrite Hl in Hrun. simpl in Hrun. by rewrite Hth in Hrun. }
    destruct (decide (0 ≤ priority th ≤ 149)) as [Hp|Hp]; cycle 1.
    { rewrite (ReadyToRun_unfold _ _ _ Hl Hth) in Hrun. cbv zeta in Hrun.
      repeat case_bool_decide; try lia. done. }
    destruct (ReadyToRun_admits k t th Hl Hth Hp Hlive)
      as (k1 & Hrun1 & _ & Hh & HL1 & HL2 & _).
    rewrite Hrun in Hrun1. injection Hrun1 as <-.
    split.
    + apply (ascending_ext (remaining_of (threads k)));
        [intros p _; rewrite Hh; by apply remaining_of_setStatus|].
      rewrite HL1. destruct (bool_decide (100 ≤ priority th)); [|done].
      by apply ascending_insert_by.
    + apply (ascending_ext (priority_of (threads k)));
        [intros p _; rewrite Hh; by apply priority_of_setStatus|].
      rewrite HL2. destruct (bool_decide (50 ≤ priority th ≤ 99)); [|done].
      by apply ascending_insert_by.
  - intros r k' Hrun.
    destruct (decide (level k = IntOff)) as [Hl|Hl]; cycle 1.
    { unfold FindNextToRun, bind, ASSERT, interrupts_off in Hrun.
      by rewrite bool_decide_eq_false_2 in Hrun. }
    rewrite (FindNextToRun_unfold k Hl) in Hrun.
    destruct (L1 k) as [|a l1] eqn:E1; [destruct (L2 k) as [|b l2] eqn:E2;
      [destruct (L3 k) as [|c l3] eqn:E3|]|];
      injection Hrun as <- <-; simpl; rewrite ?E1, ?E2; simpl in *; tauto.
  - intros b k' Hrun.
    destruct (L1 k) as [|first rest] eqn:HL.
    { rewrite (checkPreemptive_empty k HL) in Hrun. injection Hrun as <- <-.
      by rewrite HL. }
    assert (Hfin : final_state (checkPreemptive k) = Some k') by (by rewrite Hrun).
    destruct (checkPreemptive_frame k k' Hfin) as (_ & H2 & _ & Hh & _).
    rewrite Hh, H2. split; [|done].
    unfold tiers_live in Hlive. rewrite HL in Hlive.
    apply Forall_app in Hlive as [H1 _]. apply Forall_cons in H1 as [Hf Hrest].
    pose proof (SJF_Insert_pure _ _ _ Hf Hrest) as Hins.
    unfold checkPreemptive, bind, gets, modify in Hrun. simpl in Hrun.
    rewrite HL in Hrun. rewrite L1_Insert_unfold in Hrun. simpl in Hrun.
    rewrite Hins in Hrun. unfold deref, ret in Hrun. simpl in Hrun.
    destruct (threads k !! first); [|done]. simpl in Hrun.
    destruct (threads k !! currentThread k); [|done].
    destruct HA1 as [_ HA1].
    case_bool_decide; injection Hrun as <- <-; simpl; by apply ascending_insert_by.
Qed.

(** ** Admission and selection together *)

Lemma ReadyToRun_changes (k k' : Kernel) (t : ThreadPtr) :
  ReadyToRun t k = Ret tt k' →
  (∃ th, threads k !! t = Some th
         ∧ threads k' = <[t := setStatus READY th]> (threads k))
  ∧ L1 k' ++ L2 k' ++ L3 k' ≡ₚ t :: L1 k ++ L2 k ++ L3 k
  ∧ toBeDestroyed k' = toBeDestroyed k
  ∧ currentThread k' = currentThread k
  ∧ level k' = IntOff.
Proof.
  intros Hrun.
  destruct (decide (level k = IntOff)) as [Hl|Hl];
    [|by rewrite ReadyToRun_interrupts_on in Hrun].
  destruct (threads k !! t) as [th|] eqn:Hth; cycle 1.
  { unfold ReadyToRun, bind, ASSERT, interrupts_off, update in Hrun.
    rewrite Hl in Hrun. simpl in Hrun. by rewrite Hth in Hrun. }
  rewrite (ReadyToRun_unfold _ _ _ Hl Hth) in Hrun. cbv zeta in Hrun.
  rewrite L1_Insert_unfold, L2_Insert_unfold in Hrun. simpl in Hrun.
  unfold L3_Append, modify, List_Append in Hrun.
  repeat case_bool_decide; try done.
  - destruct (SortedList_Insert _ t (L1 k)) as [l|] eqn:Hins; [|done].
    injection Hrun as <-. simpl. apply SortedList_Insert_perm in Hins.
    rewrite Hins. by eauto 10.
  - destruct (SortedList_Insert _ t (L2 k)) as [l|] eqn:Hins; [|done].
    injection Hrun as <-. simpl. apply SortedList_Insert_perm in Hins.
    rewrite Hins. split; [by eauto|]. split; [|done].
    simpl. symmetry. apply Permutation_middle.
  - injection Hrun as <-. simpl. split; [by eauto|]. split; [|done].
    rewrite !app_assoc. symmetry. apply Permutation_cons_append.
Qed.

(** X8.  What one successful admission changes: the thread is READY and
    otherwise as it was, every other thread object is untouched, the
    queues together hold the same threads as before plus the admitted one,
    and the destruction slot, the running thread and the interrupt level
    are untouched. *)
Theorem ReadyToRun_effect (k k' : Kernel) (t : ThreadPtr) :
  ReadyToRun t k = Ret tt k' →
  (∃ th, threads k !! t = Some th
         ∧ threads k' = <[t := setStatus READY th]> (threads k))
  ∧ L1 k' ++ L2 k' ++ L3 k' ≡ₚ t :: L1 k ++ L2 k ++ L3 k
  ∧ toBeDestroyed k' = toBeDestroyed k
  ∧ currentThread k' = currentThread k
  ∧ level k' = IntOff.
Proof. apply ReadyToRun_changes. Qed.

(** X9.  On a scheduler with empty queues, a thread admitted with a
    priority in [0,149] is the next thread selected, and the queues are
    empty again afterwards. *)
Theorem admit_then_select (k : Kernel) (t : ThreadPtr) (th : Thread) :
  level k = IntOff →
  L1 k = [] → L2 k = [] → L3 k = [] →
  threads k !! t = Some th →
  0 ≤ priority th ≤ 149 →
  ∃ k1 k2, ReadyToRun t k = Ret tt k1
    ∧ FindNextToRun k1 = Ret (Some t) k2
    ∧ L1 k2 = [] ∧ L2 k2 = [] ∧ L3 k2 = []
    ∧ threads k2 = <[t := setStatus READY th]> (threads k).
Proof.
  intros Hl E1 E2 E3 Hth Hp.
  destruct (ReadyToRun_admits k t th Hl Hth Hp)
    as (k1 & Hrun & Hl1 & Hh & HL1 & HL2 & HL3).
  { unfold tiers_live. rewrite E1, E2, E3. constructor. }
  rewrite E1 in HL1. rewrite E2 in HL2. rewrite E3 in HL3. simpl in *.
  exists k1. rewrite (FindNextToRun_unfold k1 Hl1), HL1, HL2, HL3.
  repeat case_bool_decide; try lia; eexists; (split; [done|]);
    (split; [reflexivity|]); simpl; by rewrite ?HL1, ?HL2, ?HL3.
Qed.

(** X10.  A thread of the first band that is admitted while L1 is not
    empty is selected next exactly when its remaining work is smaller than
    that of the head of L1; otherwise the old head is selected. *)
Theorem admit_select_L1 (k : Kernel) (t x : ThreadPtr) (rest : list ThreadPtr)
    (th : Thread) :
  level k = IntOff →
  tiers_live k →
  L1 k = x :: rest →
  threads k !! t = Some th →
  100 ≤ priority th ≤ 149 →
  ∃ k1 k2, ReadyToRun t k = Ret tt k1
    ∧ FindNextToRun k1 =
        Ret (Some (if bool_decide (remaining_of (threads k) t
                                   < remaining_of (threads k) x)
                   then t else x)) k2.
Proof.
  intros Hl Hlive E1 Hth Hp.
  destruct (ReadyToRun_admits k t th Hl Hth ltac:(lia) Hlive)
    as (k1 & Hrun & Hl1 & Hh & HL1 & _).
  rewrite bool_decide_eq_true_2, E1 in HL1 by lia. simpl in HL1.
  exists k1. rewrite (FindNextToRun_unfold k1 Hl1), HL1.
  case_bool_decide; eexists; (split; [done|reflexivity]).
Qed.

(** X11.  A sequence of admissions of live threads with priorities in
    [0,149] returns; every admitted thread is READY; L1 receives the
    threads of priority 100 and more, L2 those of priority 50 to 99, and
    L3 those of priority below 50, the latter appended in the order of
    their admission. *)
Theorem admit_all_by_band (adm : list ThreadPtr) : ∀ k : Kernel,
  level k = IntOff →
  tiers_live k →
  Forall (λ p, ∃ t, threads k !! p = Some t ∧ 0 ≤ priority t ≤ 149) adm →
  ∃ k', admit_all adm k = Ret tt k'
    ∧ L1 k' ≡ₚ L1 k ++ filter (λ p, 100 ≤ priority_of (threads k) p) adm
    ∧ L2 k' ≡ₚ L2 k ++ filter (λ p, 50 ≤ priority_of (threads k) p ≤ 99) adm
    ∧ L3 k' = L3 k ++ filter (λ p, priority_of (threads k) p ≤ 49) adm
    ∧ (∀ p, p ∈ adm → ∃ t, threads k' !! p = Some t ∧ status t = READY)
    ∧ (∀ p, p ∉ adm → threads k' !! p = threads k !! p)
    ∧ (∀ p, priority_of (threads k') p = priority_of (threads k) p).
Proof.
  induction adm as [|t rest IH]; intros k Hl Hlive Hadm.
  { exists k. simpl. rewrite !app_nil_r. repeat split; try done.
    intros p Hp. by apply elem_of_nil in Hp. }
  apply Forall_cons in Hadm as [(th & Hth & Hprio) Hrest].
  destruct (ReadyToRun_admits k t th Hl Hth Hprio Hlive)
    as (k1 & Hrun & Hl1 & Hh1 & HL1 & HL2 & HL3).
  assert (Hkeys : ∀ p, priority_of (threads k1) p = priority_of (threads k) p)
    by (intros p; rewrite Hh1; by apply priority_of_setStatus).
  assert (Hpt : priority_of (threads k) t = priority th)
    by (by apply priority_of_lookup).
  destruct (IH k1) as (k' & Hall & H1 & H2 & H3 & Hst & Hfr & Hk').
  - done.
  - unfold tiers_live in *. rewrite Hh1, HL1, HL2, HL3.
    assert (Ht : live (<[t:=setStatus READY th]> (threads k)) t)
      by (unfold live; rewrite lookup_insert_eq; eauto).
    apply Forall_live_insert with (p := t) (t := setStatus READY th) in Hlive.
    apply Forall_app in Hlive as [F1 Hlive]. apply Forall_app in Hlive as [F2 F3].
    repeat case_bool_decide; rewrite ?insert_by_perm;
      repeat (apply Forall_app; split); try done;
      try (apply Forall_cons; split; done); by apply Forall_singleton.
  - eapply Forall_impl; [exact Hrest|]. intros p (tp & Htp & Hp). rewrite Hh1.
    destruct (decide (t = p)) as [->|Hne].
    + rewrite lookup_insert_eq. eexists. split; [done|]. simpl.
      rewrite Hth in Htp. by injection Htp as ->.
    + rewrite lookup_insert_ne by done. eauto.
  - exists k'. simpl. rewrite Hrun. split; [done|].
    rewrite (list_filter_iff _ (λ p, 100 ≤ priority_of (threads k) p)) in H1
      by (intros p; by rewrite Hkeys).
    rewrite (list_filter_iff _ (λ p, 50 ≤ priority_of (threads k) p ≤ 99)) in H2
      by (intros p; by rewrite Hkeys).
    rewrite (list_filter_iff _ (λ p, priority_of (threads k) p ≤ 49)) in H3
      by (intros p; by rewrite Hkeys).
    rewrite H1, H2, H3, HL1, HL2, HL3, !filter_cons, Hpt.
    split; [|split; [|split; [|split; [|split]]]].
    + repeat case_decide; repeat case_bool_decide; try lia;
        rewrite ?insert_by_perm; try done.
      simpl. apply Permutation_middle.
    + repeat case_decide; repeat case_bool_decide; try lia;
        rewrite ?insert_by_perm; try done.
      simpl. apply Permutation_middle.
    + repeat case_decide; repeat case_bool_decide; try lia; try done.
      by rewrite <- app_assoc.
    + intros p Hp. apply elem_of_cons in Hp as [->|Hp]; [|by apply Hst].
      destruct (decide (t ∈ rest)) as [Hin|Hnin]; [by apply Hst|].
      rewrite (Hfr t Hnin), Hh1, lookup_insert_eq. by eexists.
    + intros p Hp. apply not_elem_of_cons in Hp as [Hne Hp].
      rewrite (Hfr p Hp), Hh1. by rewrite lookup_insert_ne.
    + intros p. by rewrite Hk', Hkeys.
Qed.

Lemma select_all_level n : ∀ k l k',
  level k = IntOff → select_all n k = Ret l k' → level k' = IntOff.
Proof.
  induction n as [|n IH]; intros k l k' Hl; simpl.
  { by intros [= _ <-]. }
  rewrite (FindNextToRun_unfold k Hl).
  destruct (L1 k) as [|a l1]; [destruct (L2 k) as [|b l2];
    [destruct (L3 k) as [|c l3]|]|].
  - by intros [= _ <-].
  - destruct (select_all n (set_L3 l3 k)) eqn:E; try done.
    intros [= _ <-]. by eapply IH; [|exact E].
  - destruct (select_all n (set_L2 l2 k)) eqn:E; try done.
    intros [= _ <-]. by eapply IH; [|exact E].
  - destruct (select_all n (set_L1 l1 k)) eqn:E; try done.
    intros [= _ <-]. by eapply IH; [|exact E].
Qed.

(** X12.  Repeated selection empties the scheduler in strict order of
    precedence: with interrupts off, calling [FindNextToRun] at least as
    many times as there are queued threads returns all of L1 front to
    back, then all of L2, then all of L3, changes no thread object, and
    the next call returns NULL. *)
Theorem select_all_in_precedence_order (n : nat) (k : Kernel) :
  level k = IntOff →
  (length (L1 k) + length (L2 k) + length (L3 k) ≤ n)%nat →
  ∃ k', select_all n k = Ret (L1 k ++ L2 k ++ L3 k) k'
        ∧ threads k' = threads k
        ∧ FindNextToRun k' = Ret None k'.
Proof.
  intros Hl Hn.
  destruct (select_all_drains n k Hl Hn) as (k' & Hsel & E1 & E2 & E3 & Hh).
  exists k'. split; [done|]. split; [done|].
  pose proof (select_all_level n k _ k' Hl Hsel) as Hl'.
  by rewrite (FindNextToRun_unfold k' Hl'), E1, E2, E3.
Qed.

(** ** Dispatch and destruction *)

(** X13.  [CheckToBeDestroyed] on an occupied slot releases exactly the
    staged thread: its object is gone from the store, every other thread
    object is as before, the slot is empty, and the queues, the running
    thread and the interrupt level are untouched. *)
Theorem CheckToBeDestroyed_releases (k : Kernel) (p : ThreadPtr) :
  toBeDestroyed k = Some p →
  live (threads k) p →
  ∃ k', CheckToBeDestroyed k = Ret tt k'
    ∧ toBeDestroyed k' = None
    ∧ threads k' !! p = None
    ∧ (∀ q, q ≠ p → threads k' !! q = threads k !! q)
    ∧ tiers k' = tiers k
    ∧ currentThread k' = currentThread k
    ∧ level k' = level k.
Proof.
  intros Hslot Hp. eexists. split; [by apply CheckToBeDestroyed_occupied|].
  simpl. split; [done|]. split; [apply lookup_delete_eq|].
  split; [|done]. intros q Hq. by apply lookup_delete_ne.
Qed.

(** X14.  A thread whose own dispatch was a finishing one must never run
    again: if [Run] resumes behind [SWITCH] in a thread that is still
    staged in [toBeDestroyed], the destruction check deletes that very
    thread (or finds it already deleted) and the code that follows reads
    its address space through the dangling pointer. *)
Theorem Run_resume_of_staged_thread (k : Kernel) (oldThread : ThreadPtr) :
  level k = IntOff →
  toBeDestroyed k = Some oldThread →
  Run_resume oldThread k = Undefined.
Proof.
  intros Hl Hslot.
  unfold Run_resume, CheckToBeDestroyed, bind, gets, ASSERT, interrupts_off,
    delete_thread, modify, deref.
  rewrite Hl. simpl. rewrite Hslot.
  destruct (threads k !! oldThread); [|done]. simpl.
  by rewrite lookup_delete_eq.
Qed.

(** X15.  The regular resumption: when the running thread is live and is
    not the staged one, the code behind [SWITCH] returns; a staged thread
    has been deleted and the slot is empty; every other thread object, the
    queues and the running thread are untouched. *)
Theorem Run_resume_effect (k : Kernel) (oldThread : ThreadPtr) :
  level k = IntOff →
  live (threads k) oldThread →
  toBeDestroyed k ≠ Some oldThread →
  (∀ p, toBeDestroyed k = Some p → live (threads k) p) →
  ∃ k', Run_resume oldThread k = Ret tt k'
    ∧ toBeDestroyed k' = None
    ∧ threads k' = match toBeDestroyed k with
                   | Some p => delete p (threads k)
                   | None => threads k
                   end
    ∧ tiers k' = tiers k
    ∧ currentThread k' = currentThread k.
Proof.
  intros Hl [old Hold] Hne Hslot.
  assert (∃ k1, CheckToBeDestroyed k = Ret tt k1
                ∧ toBeDestroyed k1 = None
                ∧ threads k1 = match toBeDestroyed k with
                               | Some p => delete p (threads k)
                               | None => threads k
                               end
                ∧ tiers k1 = tiers k ∧ currentThread k1 = currentThread k
                ∧ threads k1 !! oldThread = Some old)
    as (k1 & Hchk & Hs1 & Hh1 & Ht1 & Hc1 & Hold1).
  { destruct (toBeDestroyed k) as [p|] eqn:E.
    - eexists. split; [apply CheckToBeDestroyed_occupied; [done|by apply Hslot]|].
      simpl. repeat split; try done.
      rewrite lookup_delete_ne; [done|]. by intros ->.
    - exists k. split; [by apply CheckToBeDestroyed_empty|]. by rewrite E. }
  unfold Run_resume, bind, ASSERT, interrupts_off. rewrite Hl. simpl.
  rewrite Hchk. unfold deref. rewrite Hold1.
  destruct (space old) as [sp|] eqn:Esp.
  - unfold modify, defined. simpl. rewrite Hold1, Esp. simpl.
    eexists. split; [reflexivity|]. by simpl.
  - exists k1. by repeat split.
Qed.

(** X16.  A dispatch that reaches [SWITCH]: the next thread has become
    the running thread and has been marked RUNNING before its start time
    was recorded; the slot holds the old thread when the dispatch is a
    finishing one and is untouched otherwise; no thread object other than
    the old and the next one has changed; the queues and the interrupt
    level are untouched. *)
Theorem Run_dispatch_effect (k : Kernel) (nextThread : ThreadPtr) (finishing : bool) :
  level k = IntOff →
  (finishing = true → toBeDestroyed k = None) →
  dispatch_ready nextThread k →
  ∃ k1, Run_dispatch nextThread finishing k = Ret (currentThread k) k1
    ∧ currentThread k1 = nextThread
    ∧ toBeDestroyed k1 = (if finishing then Some (currentThread k)
                          else toBeDestroyed k)
    ∧ (nextThread ≠ currentThread k →
       ∀ tn, threads k !! nextThread = Some tn →
             threads k1 !! nextThread
             = Some (setStartTime (machine k1) (setStatus RUNNING tn)))
    ∧ (∀ p, p ≠ currentThread k → p ≠ nextThread →
            threads k1 !! p = threads k !! p)
    ∧ tiers k1 = tiers k
    ∧ level k1 = level k.
Proof.
  intros Hl Hfin (old & Hold & Hnext & Hsp).
  cut (returns (Run_dispatch nextThread finishing) k (λ o k1,
         o = currentThread k
         ∧ currentThread k1 = nextThread
         ∧ toBeDestroyed k1 = (if finishing then Some (currentThread k)
                               else toBeDestroyed k)
         ∧ (nextThread ≠ currentThread k →
            ∀ tn, threads k !! nextThread = Some tn →
                  threads k1 !! nextThread
                  = Some (setStartTime (machine k1) (setStatus RUNNING tn)))
         ∧ (∀ p, p ≠ currentThread k → p ≠ nextThread →
                 threads k1 !! p = threads k !! p)
         ∧ tiers k1 = tiers k
         ∧ level k1 = level k)).
  { intros (o & k1 & Hrun & -> & H). by exists k1. }
  unfold Run_dispatch.
  apply returns_bind, returns_gets.
  apply returns_bind, returns_ASSERT;
    [by unfold interrupts_off; rewrite bool_decide_eq_true_2|].
  apply returns_bind.
  assert (Hstage : returns
            (if finishing
             then ASSERT (λ k0, bool_decide (toBeDestroyed k0 = None));;
                  modify (set_toBeDestroyed (Some (currentThread k)))
             else ret ()) k
            (λ _ k0, k0 = set_toBeDestroyed
                            (if finishing then Some (currentThread k)
                             else toBeDestroyed k) k)).
  { destruct finishing.
    - apply returns_bind, returns_ASSERT;
        [by rewrite bool_decide_eq_true_2; auto|]. by apply returns_modify.
    - apply returns_ret. by destruct k. }
  eapply returns_mono; [exact Hstage|]. clear Hstage.
  intros _ k0 ->. simpl.
  set (slot := if finishing then Some (currentThread k) else toBeDestroyed k).
  destruct (space old) as [sp|] eqn:Esp.
  - destruct Hsp as [[sp' Hsp'] Hchk].
    apply returns_bind, returns_bind. eapply returns_deref; [exact Hold|].
    rewrite Esp.
    apply returns_bind, returns_gets.
    apply returns_bind. eapply returns_update; [exact Hold|].
    apply returns_bind. eapply returns_deref; [apply lookup_insert_eq|].
    apply returns_bind. eapply returns_defined; [exact Hsp'|].
    apply returns_modify.
    apply returns_bind, returns_bind.
    eapply returns_deref; [apply lookup_insert_eq|].
    apply returns_ASSERT; [exact Hchk|].
    apply returns_bind, returns_modify.
    destruct (live_insert _ (currentThread k)
                (SaveUserState (machine k) old) nextThread Hnext) as [tn1 Htn1].
    apply returns_bind. eapply returns_update; [exact Htn1|].
    apply returns_bind, returns_bind, returns_gets.
    eapply returns_update; [apply lookup_insert_eq|].
    apply returns_ret. simpl. repeat split; try done.
    + intros Hne tn Htn. rewrite lookup_insert_eq.
      rewrite lookup_insert_ne in Htn1 by done. congruence.
    + intros p Hp1 Hp2. by rewrite !lookup_insert_ne.
  - apply returns_bind, returns_bind. eapply returns_deref; [exact Hold|].
    rewrite Esp. apply returns_ret.
    apply returns_bind, returns_bind.
    eapply returns_deref; [exact Hold|].
    apply returns_ASSERT; [exact Hsp|].
    apply returns_bind, returns_modify.
    destruct Hnext as [tn1 Htn1].
    apply returns_bind. eapply returns_update; [exact Htn1|].
    apply returns_bind, returns_bind, returns_gets.
    eapply returns_update; [apply lookup_insert_eq|].
    apply returns_ret. simpl. repeat split; try done.
    + intros Hne tn Htn. rewrite lookup_insert_eq. congruence.
    + intros p Hp1 Hp2. by rewrite !lookup_insert_ne.
Qed.

(** ** The aging pass: what it touches, and the order it leaves *)

Lemma keeps_bind {A B C} (f : Kernel → C) (m : M A) (g : A → M B) :
  keeps f m → (∀ a, keeps f (g a)) → keeps f (bind m g).
Proof.
  intros Hm Hg k k' H. unfold bind in H.
  destruct (m k) as [a k1| k1 |] eqn:E.
  - rewrite (Hg a k1 k' H). apply Hm. by rewrite E.
  - apply Hm. by rewrite E.
  - done.
Qed.

Lemma keeps_ret {A C} (f : Kernel → C) (a : A) : keeps f (ret a).
Proof. intros k k' H. by injection H as <-. Qed.

Lemma keeps_gets {A C} (f : Kernel → C) (g : Kernel → A) : keeps f (gets g).
Proof. intros k k' H. by injection H as <-. Qed.

Lemma keeps_defined {A C} (f : Kernel → C) (o : option A) : keeps f (defined o).
Proof. intros k k' H. unfold defined in H. destruct o; [by injection H as <-|done]. Qed.

Lemma keeps_modify {C} (f : Kernel → C) g :
  (∀ k, f (g k) = f k) → keeps f (modify g).
Proof. intros Hg k k' H. injection H as <-. apply Hg. Qed.

Lemma keeps_control_deref p : keeps control (deref p).
Proof.
  intros k k' H. unfold deref in H.
  destruct (threads k !! p); [by injection H as <-|done].
Qed.

Lemma keeps_control_update p g : keeps control (update p g).
Proof.
  intros k k' H. unfold update in H.
  destruct (threads k !! p); [by injection H as <-|done].
Qed.

Lemma keeps_control_age t : keeps control (age t).
Proof.
  unfold age. apply keeps_bind; [apply keeps_gets|intros m].
  apply keeps_control_update.
Qed.

Lemma keeps_control_insert_sorted compare t l :
  keeps control (insert_sorted compare t l).
Proof.
  unfold insert_sorted. apply keeps_bind; [apply keeps_gets|intros h].
  apply keeps_defined.
Qed.

Lemma keeps_control_aging_L1 l : ∀ newL1, keeps control (aging_L1 l newL1).
Proof.
  induction l as [|t rest IH]; intros newL1; simpl; [apply keeps_ret|].
  apply keeps_bind; [by apply keeps_modify|intros _].
  apply keeps_bind; [apply keeps_control_age|intros _].
  apply keeps_bind; [apply keeps_control_insert_sorted|intros l']. apply IH.
Qed.

Lemma keeps_control_aging_L2 l : ∀ newL1 newL2,
  keeps control (aging_L2 l newL1 newL2).
Proof.
  induction l as [|t rest IH]; intros newL1 newL2; simpl; [apply keeps_ret|].
  apply keeps_bind; [by apply keeps_modify|intros _].
  apply keeps_bind; [apply keeps_control_age|intros _].
  apply keeps_bind; [apply keeps_control_deref|intros th].
  destruct (bool_decide (priority th >= 100));
    (apply keeps_bind; [apply keeps_control_insert_sorted|intros l']); apply IH.
Qed.

Lemma keeps_control_aging_L3 l : ∀ newL2 newL3,
  keeps control (aging_L3 l newL2 newL3).
Proof.
  induction l as [|t rest IH]; intros newL2 newL3; simpl; [apply keeps_ret|].
  apply keeps_bind; [by apply keeps_modify|intros _].
  apply keeps_bind; [apply keeps_control_age|intros _].
  apply keeps_bind; [apply keeps_control_deref|intros th].
  destruct (bool_decide (priority th >= 50)); [|apply IH].
  apply keeps_bind; [apply keeps_control_insert_sorted|intros l']. apply IH.
Qed.

Lemma keeps_control_aging : keeps control aging.
Proof.
  unfold aging.
  apply keeps_bind; [apply keeps_gets|intros l1].
  apply keeps_bind; [apply keeps_control_aging_L1|intros n1].
  apply keeps_bind; [apply keeps_gets|intros l2].
  apply keeps_bind; [apply keeps_control_aging_L2|intros r2].
  apply keeps_bind; [apply keeps_gets|intros l3].
  apply keeps_bind; [apply keeps_control_aging_L3|intros r3].
  apply keeps_bind; [by apply keeps_modify|intros _].
  apply keeps_bind; [by apply keeps_modify|intros _].
  by apply keeps_modify.
Qed.

(** X17.  The aging pass touches the queued threads only: it returns
    (with live queued pointers), a thread object that is in no queue, the
    running thread among them, is exactly as before, and so are the
    destruction slot, the running-thread pointer, the interrupt level and
    the machine.  The pass checks no interrupt level. *)
Theorem aging_footprint (k : Kernel) :
  tiers_live k →
  ∃ k', aging k = Ret tt k'
    ∧ (∀ p, p ∉ L1 k ++ L2 k ++ L3 k → threads k' !! p = threads k !! p)
    ∧ toBeDestroyed k' = toBeDestroyed k
    ∧ currentThread k' = currentThread k
    ∧ level k' = level k
    ∧ machine k' = machine k.
Proof.
  intros Hlive.
  destruct (aging_returns k Hlive) as ([] & k' & Hrun & _ & _ & _ & Hh).
  cbv zeta in Hh. exists k'. split; [done|]. split.
  - intros p Hp. rewrite !elem_of_app in Hp.
    rewrite Hh, !aged_lookup_notin; tauto.
  - assert (Hc : control k' = control k)
      by (apply keeps_control_aging; by rewrite Hrun).
    unfold control in Hc. by injection Hc as -> -> -> ->.
Qed.

Lemma routed_snd_sublist threshold m l h :
  (routed threshold m l h).2 `sublist_of` l.
Proof.
  revert h. induction l as [|t rest IH]; intros h; simpl; [done|].
  case_bool_decide; simpl.
  - by apply sublist_cons.
  - by apply sublist_skip.
Qed.

Lemma routed_fst_sublist threshold m l h :
  (routed threshold m l h).1 `sublist_of` l.
Proof.
  revert h. induction l as [|t rest IH]; intros h; simpl; [done|].
  case_bool_decide; simpl.
  - by apply sublist_skip.
  - by apply sublist_cons.
Qed.

(** X18.  The plain queue stays first-in first-out across the aging pass:
    the new L3 consists of threads of the old L3, in the order they had
    there. *)
Theorem aging_keeps_L3_order (k : Kernel) :
  tiers_live k →
  ∃ k', aging k = Ret tt k' ∧ L3 k' `sublist_of` L3 k.
Proof.
  intros Hlive.
  destruct (aging_returns k Hlive) as ([] & k' & Hrun & _ & _ & H3 & _).
  cbv zeta in H3. exists k'. split; [done|]. rewrite H3.
  apply routed_snd_sublist.
Qed.

Lemma returns_and {A} (m : M A) k (Q1 Q2 : A → Kernel → Prop) :
  returns m k Q1 → returns m k Q2 → returns m k (λ a k', Q1 a k' ∧ Q2 a k').
Proof.
  intros (a & k1 & H1 & HQ1) (a' & k2 & H2 & HQ2).
  rewrite H1 in H2. injection H2 as <- <-. by exists a, k1.
Qed.

Lemma insert_sorted_SJF_pure t l k (Q : list ThreadPtr → Kernel → Prop) :
  live (threads k) t → Forall (live (threads k)) l →
  Q (insert_by (remaining_of (threads k)) t l) k →
  returns (insert_sorted SJFCompare t l) k Q.
Proof.
  intros Ht Hl H. unfold insert_sorted. apply returns_bind, returns_gets.
  eapply returns_defined; [by apply SJF_Insert_pure|done].
Qed.

Lemma insert_sorted_Priority_pure t l k (Q : list ThreadPtr → Kernel → Prop) :
  live (threads k) t → Forall (live (threads k)) l →
  Q (insert_by (priority_of (threads k)) t l) k →
  returns (insert_sorted PriorityCompare t l) k Q.
Proof.
  intros Ht Hl H. unfold insert_sorted. apply returns_bind, returns_gets.
  eapply returns_defined; [by apply Priority_Insert_pure|done].
Qed.

Lemma remaining_of_alter_ne f t h p :
  p ≠ t → remaining_of (alter f t h) p = remaining_of h p.
Proof. intros Hne. unfold remaining_of. by rewrite lookup_alter_ne. Qed.

Lemma priority_of_alter_ne f t h p :
  p ≠ t → priority_of (alter f t h) p = priority_of h p.
Proof. intros Hne. unfold priority_of. by rewrite lookup_alter_ne. Qed.

Lemma remaining_of_aged_notin m l h p :
  p ∉ l → remaining_of (aged m l h) p = remaining_of h p.
Proof. intros Hp. unfold remaining_of. by rewrite aged_lookup_notin. Qed.

(** Aging a thread that is not in a sorted list leaves the list sorted. *)
Lemma ascending_remaining_alter f t h l :
  t ∉ l → ascending (remaining_of h) l → ascending (remaining_of (alter f t h)) l.
Proof.
  intros Ht. apply ascending_ext. intros p Hp.
  apply remaining_of_alter_ne. by intros ->.
Qed.

Lemma ascending_priority_alter f t h l :
  t ∉ l → ascending (priority_of h) l → ascending (priority_of (alter f t h)) l.
Proof.
  intros Ht. apply ascending_ext. intros p Hp.
  apply priority_of_alter_ne. by intros ->.
Qed.

Lemma aging_L1_sorted l : ∀ newL1 k,
  Forall (live (threads k)) (l ++ newL1) →
  NoDup (l ++ newL1) →
  ascending (remaining_of (threads k)) newL1 →
  returns (aging_L1 l newL1) k (λ r k', ascending (remaining_of (threads k')) r).
Proof.
  induction l as [|t rest IH]; intros newL1 k Hlive Hnd Hasc; simpl.
  { by apply returns_ret. }
  apply Forall_app in Hlive as [Hl Hn]. apply Forall_cons in Hl as [Ht Hrest].
  simpl in Hnd. apply NoDup_cons in Hnd as [Htn Hnd].
  rewrite elem_of_app in Htn.
  apply returns_bind, returns_modify.
  apply returns_bind, age_returns; [exact Ht|].
  apply returns_bind, insert_sorted_SJF_pure; simpl;
    [by apply live_alter|by apply Forall_live_alter|].
  apply IH; simpl.
  - apply Forall_app. split; [by apply Forall_live_alter|].
    rewrite insert_by_perm. apply Forall_cons.
    split; [by apply live_alter|by apply Forall_live_alter].
  - rewrite insert_by_perm, <- Permutation_middle.
    apply NoDup_cons. by rewrite elem_of_app.
  - apply ascending_insert_by, ascending_remaining_alter; tauto.
Qed.

Lemma aging_L2_sorted l : ∀ newL1 newL2 k,
  Forall (live (threads k)) (l ++ newL1 ++ newL2) →
  NoDup (l ++ newL1 ++ newL2) →
  ascending (remaining_of (threads k)) newL1 →
  ascending (priority_of (threads k)) newL2 →
  returns (aging_L2 l newL1 newL2) k (λ r k',
    ascending (remaining_of (threads k')) r.1
    ∧ ascending (priority_of (threads k')) r.2).
Proof.
  induction l as [|t rest IH]; intros newL1 newL2 k Hlive Hnd Ha1 Ha2; simpl.
  { by apply returns_ret. }
  apply Forall_app in Hlive as [Hl Hn]. apply Forall_cons in Hl as [Ht Hrest].
  apply Forall_app in Hn as [Hn1 Hn2].
  simpl in Hnd. apply NoDup_cons in Hnd as [Htn Hnd].
  rewrite !elem_of_app in Htn.
  apply returns_bind, returns_modify.
  apply returns_bind, age_returns; [exact Ht|].
  set (h' := alter (Thread_aging (machine k)) t (threads k)).
  assert (Ht' : live h' t) by (by apply live_alter).
  destruct Ht' as [th' Hth'].
  assert (Ht' : live h' t) by (by eexists).
  apply returns_bind. eapply returns_deref; [exact Hth'|].
  destruct (bool_decide (priority th' >= 100)).
  - apply returns_bind, insert_sorted_SJF_pure; simpl;
      [done|by apply Forall_live_alter|].
    apply IH; simpl; fold h'.
    + apply Forall_app. split; [by apply Forall_live_alter|].
      apply Forall_app. split; [|by apply Forall_live_alter].
      rewrite insert_by_perm. apply Forall_cons.
      split; [done|by apply Forall_live_alter].
    + rewrite insert_by_perm. simpl. rewrite <- Permutation_middle.
      apply NoDup_cons. by rewrite !elem_of_app.
    + apply ascending_insert_by, ascending_remaining_alter; tauto.
    + apply ascending_priority_alter; tauto.
  - apply returns_bind, insert_sorted_Priority_pure; simpl;
      [done|by apply Forall_live_alter|].
    apply IH; simpl; fold h'.
    + apply Forall_app. split; [by apply Forall_live_alter|].
      apply Forall_app. split; [by apply Forall_live_alter|].
      rewrite insert_by_perm. apply Forall_cons.
      split; [done|by apply Forall_live_alter].
    + rewrite insert_by_perm, app_assoc, <- Permutation_middle, <- app_assoc.
      apply NoDup_cons. by rewrite !elem_of_app.
    + apply ascending_remaining_alter; tauto.
    + apply ascending_insert_by, ascending_priority_alter; tauto.
Qed.

Lemma aging_L3_sorted l : ∀ newL2 newL3 k,
  Forall (live (threads k)) (l ++ newL2) →
  NoDup (l ++ newL2) →
  ascending (priority_of (threads k)) newL2 →
  returns (aging_L3 l newL2 newL3) k (λ r k',
    ascending (priority_of (threads k')) r.1).
Proof.
  induction l as [|t rest IH]; intros newL2 newL3 k Hlive Hnd Ha2; simpl.
  { by apply returns_ret. }
  apply Forall_app in Hlive as [Hl Hn]. apply Forall_cons in Hl as [Ht Hrest].
  simpl in Hnd. apply NoDup_cons in Hnd as [Htn Hnd].
  rewrite elem_of_app in Htn.
  apply returns_bind, returns_modify.
  apply returns_bind, age_returns; [exact Ht|].
  set (h' := alter (Thread_aging (machine k)) t (threads k)).
  assert (Ht' : live h' t) by (by apply live_alter).
  destruct Ht' as [th' Hth'].
  assert (Ht' : live h' t) by (by eexists).
  apply returns_bind. eapply returns_deref; [exact Hth'|].
  destruct (bool_decide (priority th' >= 50)).
  - apply returns_bind, insert_sorted_Priority_pure; simpl;
      [done|by apply Forall_live_alter|].
    apply IH; simpl; fold h'.
    + apply Forall_app. split; [by apply Forall_live_alter|].
      rewrite insert_by_perm. apply Forall_cons.
      split; [done|by apply Forall_live_alter].
    + rewrite insert_by_perm, <- Permutation_middle.
      apply NoDup_cons. by rewrite elem_of_app.
    + apply ascending_insert_by, ascending_priority_alter; tauto.
  - apply IH; simpl; fold h'.
    + apply Forall_app. split; by apply Forall_live_alter.
    + done.
    + apply ascending_priority_alter; tauto.
Qed.

(** X19.  The aging pass sorts: when the queued pointers are live and no
    thread is queued twice, the rebuilt L1 is in ascending order of the
    remaining work and the rebuilt L2 in ascending order of the priority
    value, both read after the pass, whatever the order of the queues
    before it and whatever [Thread::aging] did to the aged threads. *)
Theorem aging_sorts (k : Kernel) :
  tiers_live k →
  NoDup (L1 k ++ L2 k ++ L3 k) →
  ∃ k', aging k = Ret tt k'
    ∧ ascending (remaining_of (threads k')) (L1 k')
    ∧ ascending (priority_of (threads k')) (L2 k').
Proof.
  intros Hlive Hnd. unfold tiers_live in Hlive.
  apply Forall_app in Hlive as [F1 Hlive]. apply Forall_app in Hlive as [F2 F3].
  apply NoDup_app in Hnd as (N1 & D1 & Hnd).
  apply NoDup_app in Hnd as (N2 & D23 & N3).
  assert (D12 : ∀ p, p ∈ L1 k → p ∉ L2 k)
    by (intros p Hp Hq; apply (D1 p Hp), elem_of_app; tauto).
  assert (D13 : ∀ p, p ∈ L1 k → p ∉ L3 k)
    by (intros p Hp Hq; apply (D1 p Hp), elem_of_app; tauto).
  cut (returns aging k (λ _ k',
         ascending (remaining_of (threads k')) (L1 k')
         ∧ ascending (priority_of (threads k')) (L2 k'))).
  { intros ([] & k' & Hrun & H). by exists k'. }
  unfold aging.
  apply returns_bind, returns_gets.
  apply returns_bind. eapply returns_mono.
  { apply returns_and; [apply aging_L1_returns|apply aging_L1_sorted];
      rewrite ?app_nil_r; done. }
  simpl. intros newL1 k1 ((Hn1 & Hh1 & HL2 & HL3 & Hm1) & Hs1).
  apply returns_bind, returns_gets.
  assert (G2 : Forall (live (threads k1)) (L2 k1 ++ newL1 ++ [])).
  { rewrite app_nil_r, HL2, Hh1, Hn1.
    apply Forall_app. split; eapply Forall_impl; eauto; intros q; by rewrite live_aged. }
  apply returns_bind. eapply returns_mono.
  { apply returns_and; [apply aging_L2_returns|apply aging_L2_sorted]; try done.
    rewrite app_nil_r, HL2, Hn1. apply NoDup_app. split; [done|].
    split; [|done]. intros p Hp Hq. by apply (D12 p). }
  simpl. intros [nL1 nL2] k2 ((Hr1 & Hr2 & Hh2 & HL3' & Hm2) & Hs21 & Hs22).
  simpl in *. rewrite HL2, Hm1 in Hr1, Hr2.
  assert (E1 : ∀ p, p ∈ nL1 → p ∈ L1 k ∨ p ∈ L2 k).
  { intros p. rewrite Hr1, Hn1, elem_of_app. intros [?|Hq]; [by left|right].
    by apply routed_fst_elem in Hq. }
  assert (E2 : ∀ p, p ∈ nL2 → p ∈ L2 k).
  { intros p. rewrite Hr2. apply routed_snd_elem. }
  apply returns_bind, returns_gets.
  assert (G3 : Forall (live (threads k2)) (L3 k2 ++ nL2)).
  { rewrite HL3', HL3, Hh2, Hh1. apply Forall_app. split.
    - eapply Forall_impl; [exact F3|]. intros q. by rewrite !live_aged.
    - apply Forall_forall. intros q Hq. apply E2 in Hq.
      rewrite !live_aged. by eapply Forall_forall in F2. }
  apply returns_bind. eapply returns_mono.
  { apply returns_and; [apply aging_L3_returns|apply aging_L3_sorted]; try done.
    rewrite HL3', HL3. apply NoDup_app. split; [done|]. split.
    - intros p Hp Hq. apply E2 in Hq. by apply (D23 p).
    - rewrite Hr2. eapply sublist_NoDup; [exact N2|apply routed_snd_sublist]. }
  simpl. intros [mL2 mL3] k3 ((Hq1 & Hq2 & Hh3 & Hm3) & Hs3). simpl in *.
  apply returns_bind, returns_modify.
  apply returns_bind, returns_modify.
  apply returns_modify. simpl. split; [|done].
  eapply ascending_ext; [|exact Hs21].
  intros p Hp. rewrite Hh3, HL3', HL3. apply remaining_of_aged_notin.
  intros Hq. destruct (E1 p Hp) as [H|H]; [by apply (D13 p)|by apply (D23 p)].
Qed.

(** The routes of one pass, by the thresholds the code tests. *)
Lemma aging_routes (k : Kernel) :
  tiers_live k →
  NoDup (L1 k ++ L2 k ++ L3 k) →
  ∃ k', aging k = Ret tt k'
    ∧ L1 k' ++ L2 k' ++ L3 k' ≡ₚ L1 k ++ L2 k ++ L3 k
    ∧ (∀ q, live (threads k') q ↔ live (threads k) q)
    ∧ (∀ p t, p ∈ L1 k ++ L2 k ++ L3 k → threads k !! p = Some t →
              threads k' !! p = Some (Thread_aging (machine k) t))
    ∧ (∀ p, p ∈ L1 k → p ∈ L1 k')
    ∧ (∀ p, p ∈ L2 k →
         (p ∈ L1 k' ↔ 100 ≤ priority_of (threads k') p)
         ∧ (p ∈ L2 k' ↔ ¬ 100 ≤ priority_of (threads k') p))
    ∧ (∀ p, p ∈ L3 k →
         (p ∈ L2 k' ↔ 50 ≤ priority_of (threads k') p)
         ∧ (p ∈ L3 k' ↔ ¬ 50 ≤ priority_of (threads k') p)).
Proof.
  intros Hlive Hnd.
  destruct (aging_returns k Hlive) as ([] & k' & Hrun & H1 & H2 & H3 & Hh).
  cbv zeta in *.
  set (m := machine k) in *.
  set (h1 := aged m (L1 k) (threads k)) in *.
  set (h2 := aged m (L2 k) h1) in *.
  pose proof Hnd as Hnd'.
  apply NoDup_app in Hnd' as (N1 & D1 & Hnd').
  apply NoDup_app in Hnd' as (N2 & D23 & N3).
  assert (D12 : ∀ p, p ∈ L1 k → p ∉ L2 k)
    by (intros p Hp Hq; apply (D1 p Hp), elem_of_app; tauto).
  assert (D13 : ∀ p, p ∈ L1 k → p ∉ L3 k)
    by (intros p Hp Hq; apply (D1 p Hp), elem_of_app; tauto).
  pose proof (λ x, routed_elem 100 m (L2 k) h1 x N2) as R2. fold h2 in R2.
  pose proof (λ x, routed_elem 50 m (L3 k) h2 x N3) as R3. rewrite <- Hh in R3.
  pose proof (routed_perm 100 m (L2 k) h1) as P2.
  pose proof (routed_perm 50 m (L3 k) h2) as P3.
  assert (Hp2 : ∀ p, p ∈ L2 k → priority_of h2 p = priority_of (threads k') p).
  { intros p Hp. rewrite Hh. symmetry. apply priority_of_aged_notin. auto. }
  exists k'. split; [exact Hrun|]. split; [|split; [|split; [|split; [|split]]]].
  - clear R2 R3. rewrite H1, H2, H3. clear H1 H2 H3.
    set (r2 := routed 100 m (L2 k) h1) in *.
    set (r3 := routed 50 m (L3 k) h2) in *.
    rewrite <- P2, <- P3 at 1. rewrite <- !app_assoc. do 2 f_equiv.
  - intros q. rewrite Hh. unfold h2, h1. by rewrite !live_aged.
  - intros p t Hp Ht. rewrite Hh. rewrite !elem_of_app in Hp.
    destruct Hp as [Hp|[Hp|Hp]].
    + rewrite aged_lookup_notin by auto. unfold h2.
      rewrite aged_lookup_notin by auto. unfold h1.
      rewrite aged_lookup_in by done. by rewrite Ht.
    + rewrite aged_lookup_notin by auto. unfold h2.
      rewrite aged_lookup_in by done. unfold h1.
      rewrite aged_lookup_notin by (intros Hq; by apply (D12 p)). by rewrite Ht.
    + rewrite aged_lookup_in by done. unfold h2.
      rewrite aged_lookup_notin by (intros Hq; by apply (D23 p)). unfold h1.
      rewrite aged_lookup_notin by (intros Hq; by apply (D13 p)). by rewrite Ht.
  - intros p Hp. rewrite H1, elem_of_app. tauto.
  - intros p Hp.
    assert (Hn1 : p ∉ L1 k) by (intros Hq; by apply (D12 p)).
    assert (Hn3 : p ∉ L3 k) by auto.
    destruct (R2 p) as [Ra Rb]. rewrite (Hp2 p Hp) in Ra, Rb. split.
    + rewrite H1, elem_of_app, Ra. tauto.
    + rewrite H2, elem_of_app, Rb. split; [|tauto].
      intros [?|Hq]; [tauto|]. by apply routed_fst_elem in Hq.
  - intros p Hp.
    assert (Hn2 : p ∉ L2 k) by (intros Hq; by apply (D23 p)).
    destruct (R3 p) as [Ra Rb]. split.
    + rewrite H2, elem_of_app, Ra. split; [|tauto].
      intros [Hq|?]; [|tauto]. by apply routed_snd_elem in Hq.
    + rewrite H3, Rb. tauto.
Qed.

(** X20.  The promotion tests of the aging pass are thresholds without an
    upper bound: in a state with live queued pointers and no thread queued
    twice, a thread of L2 is in the new L1 exactly when its aged priority
    is at least 100 and in the new L2 otherwise; a thread of L3 is in the
    new L2 exactly when its aged priority is at least 50, however large,
    and in the new L3 otherwise. *)
Theorem aging_thresholds (k : Kernel) :
  tiers_live k →
  NoDup (L1 k ++ L2 k ++ L3 k) →
  ∃ k', aging k = Ret tt k'
    ∧ (∀ p, p ∈ L2 k →
         (p ∈ L1 k' ↔ 100 ≤ priority_of (threads k') p)
         ∧ (p ∈ L2 k' ↔ ¬ 100 ≤ priority_of (threads k') p))
    ∧ (∀ p, p ∈ L3 k →
         (p ∈ L2 k' ↔ 50 ≤ priority_of (threads k') p)
         ∧ (p ∈ L3 k' ↔ ¬ 50 ≤ priority_of (threads k') p)).
Proof.
  intros Hlive Hnd.
  destruct (aging_routes k Hlive Hnd) as (k' & Hrun & _ & _ & _ & _ & H2 & H3).
  by exists k'.
Qed.

(** X21.  The promotion ladder takes two passes from L3 to L1: a thread
    of L3 whose priority reaches 50 in one aging step is in L2, and not in
    L1, after the first pass, even when that priority is 100 or more; it
    is in L1 after the second pass when its priority is then at least
    100. *)
Theorem aging_two_passes (k : Kernel) (p : ThreadPtr) (t : Thread) :
  tiers_live k →
  NoDup (L1 k ++ L2 k ++ L3 k) →
  p ∈ L3 k →
  threads k !! p = Some t →
  50 ≤ priority (Thread_aging (machine k) t) →
  100 ≤ priority (Thread_aging (machine k) (Thread_aging (machine k) t)) →
  ∃ k1 k2, aging k = Ret tt k1 ∧ aging k1 = Ret tt k2
    ∧ p ∈ L2 k1 ∧ (p ∉ L1 k1) ∧ p ∈ L1 k2.
Proof.
  intros Hlive Hnd Hp Ht H50 H100.
  assert (Hin : p ∈ L1 k ++ L2 k ++ L3 k) by (rewrite !elem_of_app; tauto).
  destruct (aging_routes k Hlive Hnd)
    as (k1 & Hrun1 & Hperm1 & Hlive1 & Haged1 & _ & _ & H3).
  assert (Hc : control k1 = control k)
    by (apply keeps_control_aging; by rewrite Hrun1).
  assert (Hm : machine k1 = machine k) by (unfold control in Hc; congruence).
  pose proof (Haged1 p t Hin Ht) as Ht1.
  assert (Hp2 : p ∈ L2 k1).
  { apply (H3 p Hp). by rewrite (priority_of_lookup _ _ _ Ht1). }
  assert (Hnd1 : NoDup (L1 k1 ++ L2 k1 ++ L3 k1)) by (by rewrite Hperm1).
  assert (Hlv1 : tiers_live k1).
  { unfold tiers_live in *. rewrite Hperm1.
    eapply Forall_impl; [exact Hlive|]. intros q. by rewrite Hlive1. }
  assert (Hin1 : p ∈ L1 k1 ++ L2 k1 ++ L3 k1) by (rewrite !elem_of_app; tauto).
  destruct (aging_routes k1 Hlv1 Hnd1)
    as (k2 & Hrun2 & _ & _ & Haged2 & _ & H2 & _).
  pose proof (Haged2 p _ Hin1 Ht1) as Ht2. rewrite Hm in Ht2.
  exists k1, k2. split; [done|]. split; [done|]. split; [done|]. split.
  - apply NoDup_app in Hnd1 as (_ & D & _). intros Hq.
    apply (D p Hq), elem_of_app. tauto.
  - apply (H2 p Hp2). by rewrite (priority_of_lookup _ _ _ Ht2).
Qed.

(** X22.  Well-formed queues stay well-formed: when every queued pointer
    is live and no thread is queued twice, the same holds after the
    admission of a thread that is not queued, after a selection, after a
    preemption check and after an aging pass. *)
Theorem queues_stay_well_formed (k : Kernel) :
  tiers_live k →
  NoDup (L1 k ++ L2 k ++ L3 k) →
  (∀ t k', t ∉ L1 k ++ L2 k ++ L3 k → ReadyToRun t k = Ret tt k' →
     tiers_live k' ∧ NoDup (L1 k' ++ L2 k' ++ L3 k'))
  ∧ (∀ r k', FindNextToRun k = Ret r k' →
     tiers_live k' ∧ NoDup (L1 k' ++ L2 k' ++ L3 k'))
  ∧ (∀ b k', checkPreemptive k = Ret b k' →
     tiers_live k' ∧ NoDup (L1 k' ++ L2 k' ++ L3 k'))
  ∧ (∀ k', aging k = Ret tt k' →
     tiers_live k' ∧ NoDup (L1 k' ++ L2 k' ++ L3 k')).
Proof.
  intros Hlive Hnd. split; [|split; [|split]].
  - intros t k' Ht Hrun.
    destruct (ReadyToRun_changes k k' t Hrun) as ((th & Hth & Hh) & Hperm & _).
    unfold tiers_live in *. rewrite Hperm, Hh. split.
    + apply Forall_cons. split; [unfold live; rewrite lookup_insert_eq; eauto|].
      by apply Forall_live_insert.
    + by apply NoDup_cons.
  - intros r k' Hrun.
    destruct (decide (level k = IntOff)) as [Hl|Hl]; cycle 1.
    { unfold FindNextToRun, bind, ASSERT, interrupts_off in Hrun.
      by rewrite bool_decide_eq_false_2 in Hrun. }
    rewrite (FindNextToRun_unfold k Hl) in Hrun. unfold tiers_live in *.
    destruct (L1 k) as [|a l1] eqn:E1; [destruct (L2 k) as [|b l2] eqn:E2;
      [destruct (L3 k) as [|c l3] eqn:E3|]|];
      injection Hrun as <- <-; simpl; rewrite ?E1, ?E2, ?E3; simpl in *;
      try done.
    + apply Forall_cons in Hlive as [_ ?]. by apply NoDup_cons in Hnd as [_ ?].
    + apply Forall_cons in Hlive as [_ ?]. by apply NoDup_cons in Hnd as [_ ?].
    + apply Forall_cons in Hlive as [_ ?]. by apply NoDup_cons in Hnd as [_ ?].
  - intros b k' Hrun.
    assert (Hfin : final_state (checkPreemptive k) = Some k') by (by rewrite Hrun).
    destruct (checkPreemptive_frame k k' Hfin) as (H1 & H2 & H3 & Hh & _).
    unfold tiers_live in *. by rewrite H1, H2, H3, Hh.
  - intros k' Hrun.
    destruct (aging_routes k Hlive Hnd) as (k1 & Hrun1 & Hperm & Hlv & _).
    rewrite Hrun in Hrun1. injection Hrun1 as <-.
    unfold tiers_live in *. rewrite Hperm. split; [|done].
    eapply Forall_impl; [exact Hlive|]. intros q. by rewrite Hlv.
Qed.

(** X23.  The idle scheduler: with empty queues (and interrupts off for
    the selection) [FindNextToRun] returns NULL, [checkPreemptive] answers
    [false] and the aging pass returns, each in the state it was called
    in. *)
Theorem idle_scheduler (k : Kernel) :
  L1 k = [] → L2 k = [] → L3 k = [] →
  (level k = IntOff → FindNextToRun k = Ret None k)
  ∧ checkPreemptive k = Ret false k
  ∧ aging k = Ret tt k.
Proof.
  intros E1 E2 E3. split; [|split].
  - intros Hl. by rewrite (FindNextToRun_unfold k Hl), E1, E2, E3.
  - by apply checkPreemptive_empty.
  - unfold aging, bind, gets, modify. simpl. rewrite E1. simpl.
    rewrite E2. simpl. rewrite E3. simpl.
    destruct k; simpl in *; by subst.
Qed.

End Further.

(** * Instances of the theorems on concrete states *)

Lemma ReadyToRun_bands_witness :
  (admitted_L1 0%nat k_admit (ReadyToRun 0%nat k_admit) ↔ 100 ≤ 120 ≤ 149)
  ∧ (admitted_L2 0%nat k_admit (ReadyToRun 0%nat k_admit) ↔ 50 ≤ 120 ≤ 99)
  ∧ (admitted_L3 0%nat k_admit (ReadyToRun 0%nat k_admit) ↔ 0 ≤ 120 ≤ 49)
  ∧ (120 < 0 ∨ 149 < 120 →
     ∃ k', ReadyToRun 0%nat k_admit = Fatal k' ∧ tiers k' = tiers k_admit).
Proof.
  apply (ReadyToRun_bands k_admit 0%nat (thread_of 120 BLOCKED 2 10)).
  - reflexivity.
  - reflexivity.
  - repeat constructor; eexists; reflexivity.
Defined.

(** C8, as stated, fails: thread 0 has priority 200 and status BLOCKED;
    [ReadyToRun] aborts, but the thread object is no longer what it was
    (its status is READY). *)
Lemma ReadyToRun_abort_after_setStatus :
  ¬ (∃ k', ReadyToRun 0%nat k_bad_priority = Fatal k'
           ∧ tiers k' = tiers k_bad_priority
           ∧ threads k' !! 0%nat = threads k_bad_priority !! 0%nat).
Proof.
  intros (k' & Hrun & _ & Hthread).
  rewrite (ReadyToRun_unfold _ _ (thread_of 200 BLOCKED 0 5)) in Hrun
    by reflexivity.
  simpl in Hrun. injection Hrun as <-.
  simpl in Hthread. rewrite lookup_insert_eq in Hthread.
  discriminate Hthread.
Qed.

Lemma ReadyToRun_out_of_range_witness :
  ReadyToRun 0%nat k_bad_priority =
    Fatal (set_threads (<[0%nat := setStatus READY (thread_of 200 BLOCKED 0 5)]>
                          (threads k_bad_priority)) k_bad_priority)
  ∧ ∀ k', ReadyToRun 0%nat k_bad_priority = Fatal k' →
          tiers k' = tiers k_bad_priority.
Proof.
  apply (ReadyToRun_out_of_range k_bad_priority 0%nat (thread_of 200 BLOCKED 0 5)).
  - reflexivity.
  - right. simpl. lia.
Defined.

Lemma FindNextToRun_precedence_witness :
  FindNextToRun k_admit = Ret (Some 1%nat) (set_L1 [] k_admit)
  ∧ (∀ t k', FindNextToRun k_admit = Ret (Some t) k' →
       (L1 k_admit ≠ [] →
        head (L1 k_admit) = Some t ∧ L2 k' = L2 k_admit ∧ L3 k' = L3 k_admit)
       ∧ (L1 k_admit = [] → L2 k_admit ≠ [] →
          head (L2 k_admit) = Some t ∧ L3 k' = L3 k_admit)).
Proof.
  apply (FindNextToRun_precedence k_admit). reflexivity.
Defined.

Lemma destruction_discipline_witness :
  (∃ k1 k2,
      Run_dispatch 1%nat true k_admit = Ret 4%nat k1
      ∧ toBeDestroyed k1 = Some 4%nat
      ∧ (∀ n, Run_dispatch n true k1 = Fatal k1)
      ∧ CheckToBeDestroyed k1 = Ret tt k2
      ∧ toBeDestroyed k2 = None
      ∧ CheckToBeDestroyed k2 = Ret tt k2)
  ∧ (∀ (k0 : @Kernel plain) n,
       toBeDestroyed k0 ≠ None → Run_dispatch n true k0 = Fatal k0)
  ∧ (∀ k0 k2 : @Kernel plain,
       CheckToBeDestroyed k0 = Ret tt k2 → toBeDestroyed k2 = None)
  ∧ (∀ k0 : @Kernel plain,
       toBeDestroyed k0 = None → CheckToBeDestroyed k0 = Ret tt k0).
Proof.
  apply (destruction_discipline k_admit 1%nat).
  - reflexivity.
  - reflexivity.
  - exists (thread_of 130 RUNNING 3 6). split; [reflexivity|].
    split; [eexists; reflexivity|]. reflexivity.
Defined.

(** C1: the check compares the estimates, not the remaining work.  The
    only thread of L1 has remaining work 3, the running thread has
    remaining work 8, and [checkPreemptive] answers [false]. *)
Lemma checkPreemptive_compares_estimates :
  L1 k_preempt = [1%nat]
  ∧ remaining_of (threads k_preempt) 1%nat = 3
  ∧ remaining_of (threads k_preempt) (currentThread k_preempt) = 8
  ∧ checkPreemptive k_preempt = Ret false k_preempt.
Proof. repeat split; vm_compute; reflexivity. Qed.

(** C6: on a tie the check changes the order of L1.  Threads 1 and 2 were
    admitted in this order with equal remaining work; after
    [checkPreemptive] thread 2 stands in front of thread 1. *)
Lemma checkPreemptive_rotates_ties :
  admit_all [1%nat; 2%nat] k_fresh = Ret tt k_tie
  ∧ L1 k_tie = [1%nat; 2%nat]
  ∧ checkPreemptive k_tie = Ret true (set_L1 [2%nat; 1%nat] k_tie).
Proof. repeat split; vm_compute; reflexivity. Qed.

Lemma k_aging_live : tiers_live k_aging.
Proof. repeat constructor; eexists; reflexivity. Qed.

Lemma aging_preserves_units_witness :
  ∃ k', aging k_aging = Ret tt k'
    ∧ (length (L1 k') + length (L2 k') + length (L3 k')
       = length (L1 k_aging) + length (L2 k_aging) + length (L3 k_aging))%nat
    ∧ L1 k' ++ L2 k' ++ L3 k' ≡ₚ L1 k_aging ++ L2 k_aging ++ L3 k_aging
    ∧ (∀ p, p ∈ L1 k_aging → p ∈ L1 k')
    ∧ (∀ p, p ∈ L2 k_aging → p ∈ L1 k' ∨ p ∈ L2 k')
    ∧ (NoDup (L1 k_aging ++ L2 k_aging ++ L3 k_aging) →
       (∀ p, p ∈ L1 k_aging → (p ∉ L2 k') ∧ (p ∉ L3 k'))
       ∧ (∀ p, p ∈ L2 k_aging → p ∉ L3 k')).
Proof. apply (aging_preserves_units k_aging), k_aging_live. Defined.

Lemma aging_promotion_witness :
  ∃ k', aging k_aging = Ret tt k'
    ∧ (∀ p t, p ∈ L1 k_aging ++ L2 k_aging ++ L3 k_aging →
              threads k_aging !! p = Some t →
              threads k' !! p = Some (bump_priority t))
    ∧ (∀ p, p ∈ L1 k_aging → p ∈ L1 k' ∧ (p ∉ L2 k') ∧ (p ∉ L3 k'))
    ∧ (∀ p, p ∈ L2 k_aging →
         (p ∈ L1 k' ↔ 100 ≤ priority_of (threads k') p ≤ 149)
         ∧ (p ∈ L2 k' ↔ ¬ 100 ≤ priority_of (threads k') p ≤ 149)
         ∧ (p ∉ L3 k'))
    ∧ (∀ p, p ∈ L3 k_aging →
         (p ∈ L2 k' ↔ 50 ≤ priority_of (threads k') p ≤ 149)
         ∧ (p ∈ L3 k' ↔ ¬ 50 ≤ priority_of (threads k') p ≤ 149)
         ∧ (p ∉ L1 k')).
Proof.
  apply (aging_promotion k_aging).
  - apply k_aging_live.
  - apply NoDup_ListNoDup. repeat constructor; simpl; lia.
  - intros p t _ _. simpl. lia.
Defined.

(** The pass on [k_aging]: thread 2 (95 to 105) moves to L1, thread 3
    (48 to 58) moves to L2, threads 5 and 6 stay. *)
Example aging_k_aging :
  ∃ k', aging k_aging = Ret tt k'
        ∧ L1 k' = [1%nat; 2%nat] ∧ L2 k' = [3%nat; 5%nat] ∧ L3 k' = [6%nat].
Proof. eexists. vm_compute. repeat split. Qed.

Lemma ordered_queues_tie_break_witness :
  ∃ k' order k'',
    admit_all adm_order k_order = Ret tt k'
    ∧ select_all (length adm_order) k' = Ret order k''
    ∧ (∀ a b, a ∈ L1 k' → b ∈ L1 k' →
         (precedes a b order
          ↔ remaining_of (threads k') a < remaining_of (threads k') b
            ∨ (remaining_of (threads k') a = remaining_of (threads k') b
               ∧ precedes a b adm_order)))
    ∧ (∀ a b, a ∈ L2 k' → b ∈ L2 k' →
         (precedes a b order
          ↔ priority_of (threads k') a < priority_of (threads k') b
            ∨ (priority_of (threads k') a = priority_of (threads k') b
               ∧ precedes a b adm_order))).
Proof.
  apply (ordered_queues_tie_break k_order adm_order).
  - reflexivity.
  - reflexivity.
  - reflexivity.
  - reflexivity.
  - apply NoDup_ListNoDup. repeat constructor; simpl; lia.
  - repeat constructor; eexists; (split; [reflexivity|simpl; lia]).
Defined.

(** The order in which the five threads come back: 6 (remaining work 1),
    then 1 and 2 (remaining work 3, in admission order), then 3 and 5
    (priority 60, in admission order). *)
Example select_after_admit :
  ∃ k' k'', admit_all adm_order k_order = Ret tt k'
            ∧ select_all 5 k' = Ret [6%nat; 1%nat; 2%nat; 3%nat; 5%nat] k''.
Proof. eexists _, _. split; vm_compute; reflexivity. Qed.

(** Scenario of the specification: priority 120 with estimate 10 and 2
    consumed, priority 125 with estimate 5 and 1 consumed; the second is
    selected first. *)
Example select_shorter_first :
  ∃ k1 k2, ReadyToRun 0%nat k_admit = Ret tt k1
           ∧ L1 k1 = [1%nat; 0%nat]
           ∧ FindNextToRun k1 = Ret (Some 1%nat) k2.
Proof. eexists _, _. repeat split; vm_compute; reflexivity. Qed.

(** C7: the tie-break by admission order does not survive a preemption
    check.  Threads 1 and 2 are admitted in this order to a scheduler with
    empty queues; both are resident in L1 with the same remaining work;
    after one [checkPreemptive] the selection returns thread 2 before
    thread 1, although thread 1 was admitted earlier. *)
Lemma tie_break_lost_after_check :
  admit_all [1%nat; 2%nat] k_fresh = Ret tt k_tie
  ∧ L1 k_tie = [1%nat; 2%nat]
  ∧ remaining_of (threads k_tie) 1%nat = remaining_of (threads k_tie) 2%nat
  ∧ precedes 1%nat 2%nat [1%nat; 2%nat]
  ∧ checkPreemptive k_tie = Ret true (set_L1 [2%nat; 1%nat] k_tie)
  ∧ select_all 2 (set_L1 [2%nat; 1%nat] k_tie)
    = Ret [2%nat; 1%nat] (set_L1 [] k_tie)
  ∧ ¬ precedes 1%nat 2%nat [2%nat; 1%nat].
Proof.
  split; [vm_compute; reflexivity|].
  split; [reflexivity|].
  split; [reflexivity|].
  split; [left; split; [reflexivity|apply list_elem_of_here]|].
  split; [vm_compute; reflexivity|].
  split; [vm_compute; reflexivity|].
  simpl. intros [[Heq _]|[[_ Hin]|[]]]; [discriminate Heq|].
  by apply elem_of_nil in Hin.
Qed.

(** * Instances of the further properties *)

Lemma interrupts_on_abort_witness :
  ReadyToRun 0%nat k_interrupts_on = Fatal k_interrupts_on
  ∧ FindNextToRun k_interrupts_on = Fatal k_interrupts_on
  ∧ Run_dispatch 0%nat true k_interrupts_on = Fatal k_interrupts_on
  ∧ Run_resume 0%nat k_interrupts_on = Fatal k_interrupts_on.
Proof. apply (interrupts_on_abort k_interrupts_on 0%nat true). discriminate. Defined.

Lemma k_tie_live : tiers_live k_tie.
Proof. repeat constructor; eexists; reflexivity. Qed.

Lemma k_admit_live : tiers_live k_admit.
Proof. repeat constructor; eexists; reflexivity. Qed.

Lemma k_aging_nodup : NoDup (L1 k_aging ++ L2 k_aging ++ L3 k_aging).
Proof. apply NoDup_ListNoDup. repeat constructor; simpl; lia. Qed.

Lemma checkPreemptive_answer_witness :
  ∃ b k', checkPreemptive k_tie = Ret b k'
    ∧ (b = true ↔
       ∃ first rest, L1 k_tie = first :: rest
         ∧ approx_of (threads k_tie) first
           < approx_of (threads k_tie) (currentThread k_tie)).
Proof.
  apply (checkPreemptive_answer k_tie).
  - apply k_tie_live.
  - eexists; reflexivity.
Defined.

Lemma checkPreemptive_footprint_witness :
  L1 (set_L1 [2%nat; 1%nat] k_tie) ≡ₚ L1 k_tie
  ∧ L2 (set_L1 [2%nat; 1%nat] k_tie) = L2 k_tie
  ∧ L3 (set_L1 [2%nat; 1%nat] k_tie) = L3 k_tie
  ∧ threads (set_L1 [2%nat; 1%nat] k_tie) = threads k_tie
  ∧ toBeDestroyed (set_L1 [2%nat; 1%nat] k_tie) = toBeDestroyed k_tie
  ∧ currentThread (set_L1 [2%nat; 1%nat] k_tie) = currentThread k_tie.
Proof.
  apply (checkPreemptive_footprint k_tie (set_L1 [2%nat; 1%nat] k_tie)).
  vm_compute. reflexivity.
Defined.

Lemma checkPreemptive_order_witness :
  ∃ b k', checkPreemptive k_tie = Ret b k'
    ∧ (L1 k' = L1 k_tie ↔
       match L1 k_tie with
       | first :: second :: _ =>
           remaining_of (threads k_tie) first < remaining_of (threads k_tie) second
       | _ => True
       end)
    ∧ (∀ first second rest, L1 k_tie = first :: second :: rest →
         ¬ remaining_of (threads k_tie) first
           < remaining_of (threads k_tie) second →
         head (L1 k') = Some second).
Proof.
  apply (checkPreemptive_order k_tie).
  - apply k_tie_live.
  - eexists; reflexivity.
  - apply NoDup_ListNoDup. repeat constructor; simpl; lia.
Defined.

Lemma queues_stay_sorted_witness :
  (∀ t k', ReadyToRun t k_tie = Ret tt k' →
     ascending (remaining_of (threads k')) (L1 k')
     ∧ ascending (priority_of (threads k')) (L2 k'))
  ∧ (∀ r k', FindNextToRun k_tie = Ret r k' →
     ascending (remaining_of (threads k')) (L1 k')
     ∧ ascending (priority_of (threads k')) (L2 k'))
  ∧ (∀ b k', checkPreemptive k_tie = Ret b k' →
     ascending (remaining_of (threads k')) (L1 k')
     ∧ ascending (priority_of (threads k')) (L2 k')).
Proof.
  apply (queues_stay_sorted k_tie).
  - apply k_tie_live.
  - simpl. repeat split; repeat constructor; vm_compute; discriminate.
  - exact I.
Defined.

Lemma ReadyToRun_effect_witness :
  (∃ th, threads k_admit !! 0%nat = Some th
         ∧ threads k_admitted = <[0%nat := setStatus READY th]> (threads k_admit))
  ∧ L1 k_admitted ++ L2 k_admitted ++ L3 k_admitted
    ≡ₚ 0%nat :: L1 k_admit ++ L2 k_admit ++ L3 k_admit
  ∧ toBeDestroyed k_admitted = toBeDestroyed k_admit
  ∧ currentThread k_admitted = currentThread k_admit
  ∧ level k_admitted = IntOff.
Proof.
  apply (ReadyToRun_effect k_admit k_admitted 0%nat).
  vm_compute. reflexivity.
Defined.

Lemma admit_then_select_witness :
  ∃ k1 k2, ReadyToRun 1%nat k_fresh = Ret tt k1
    ∧ FindNextToRun k1 = Ret (Some 1%nat) k2
    ∧ L1 k2 = [] ∧ L2 k2 = [] ∧ L3 k2 = []
    ∧ threads k2
      = <[1%nat := setStatus READY (thread_of 120 READY 2 5)]> (threads k_fresh).
Proof.
  apply (admit_then_select k_fresh 1%nat (thread_of 120 READY 2 5));
    try reflexivity.
  simpl. lia.
Defined.

Lemma admit_select_L1_witness :
  ∃ k1 k2, ReadyToRun 0%nat k_admit = Ret tt k1
    ∧ FindNextToRun k1 =
        Ret (Some (if bool_decide (remaining_of (threads k_admit) 0%nat
                                   < remaining_of (threads k_admit) 1%nat)
                   then 0%nat else 1%nat)) k2.
Proof.
  apply (admit_select_L1 k_admit 0%nat 1%nat [] (thread_of 120 BLOCKED 2 10)).
  - reflexivity.
  - apply k_admit_live.
  - reflexivity.
  - reflexivity.
  - simpl. lia.
Defined.

Lemma admit_all_by_band_witness :
  ∃ k', admit_all adm_order k_order = Ret tt k'
    ∧ L1 k' ≡ₚ L1 k_order
               ++ filter (λ p, 100 ≤ priority_of (threads k_order) p) adm_order
    ∧ L2 k' ≡ₚ L2 k_order
               ++ filter (λ p, 50 ≤ priority_of (threads k_order) p ≤ 99) adm_order
    ∧ L3 k' = L3 k_order
              ++ filter (λ p, priority_of (threads k_order) p ≤ 49) adm_order
    ∧ (∀ p, p ∈ adm_order → ∃ t, threads k' !! p = Some t ∧ status t = READY)
    ∧ (∀ p, p ∉ adm_order → threads k' !! p = threads k_order !! p)
    ∧ (∀ p, priority_of (threads k') p = priority_of (threads k_order) p).
Proof.
  apply (admit_all_by_band adm_order k_order).
  - reflexivity.
  - constructor.
  - repeat constructor; eexists; (split; [reflexivity|simpl; lia]).
Defined.

Lemma select_all_in_precedence_order_witness :
  ∃ k', select_all 3 k_admit = Ret (L1 k_admit ++ L2 k_admit ++ L3 k_admit) k'
        ∧ threads k' = threads k_admit
        ∧ FindNextToRun k' = Ret None k'.
Proof.
  apply (select_all_in_precedence_order 3 k_admit).
  - reflexivity.
  - simpl. lia.
Defined.

Lemma CheckToBeDestroyed_releases_witness :
  ∃ k', CheckToBeDestroyed k_staged = Ret tt k'
    ∧ toBeDestroyed k' = None
    ∧ threads k' !! 2%nat = None
    ∧ (∀ q, q ≠ 2%nat → threads k' !! q = threads k_staged !! q)
    ∧ tiers k' = tiers k_staged
    ∧ currentThread k' = currentThread k_staged
    ∧ level k' = level k_staged.
Proof.
  apply (CheckToBeDestroyed_releases k_staged 2%nat).
  - reflexivity.
  - eexists; reflexivity.
Defined.

Lemma Run_resume_of_staged_thread_witness :
  Run_resume 2%nat k_staged = Undefined.
Proof. apply (Run_resume_of_staged_thread k_staged 2%nat); reflexivity. Defined.

Lemma Run_resume_effect_witness :
  ∃ k', Run_resume 4%nat k_staged = Ret tt k'
    ∧ toBeDestroyed k' = None
    ∧ threads k' = delete 2%nat (threads k_staged)
    ∧ tiers k' = tiers k_staged
    ∧ currentThread k' = currentThread k_staged.
Proof.
  apply (Run_resume_effect k_staged 4%nat).
  - reflexivity.
  - eexists; reflexivity.
  - discriminate.
  - intros p [= <-]. eexists; reflexivity.
Defined.

Lemma Run_dispatch_effect_witness :
  ∃ k1, Run_dispatch 1%nat false k_admit = Ret (currentThread k_admit) k1
    ∧ currentThread k1 = 1%nat
    ∧ toBeDestroyed k1 = toBeDestroyed k_admit
    ∧ (1%nat ≠ currentThread k_admit →
       ∀ tn, threads k_admit !! 1%nat = Some tn →
             threads k1 !! 1%nat
             = Some (setStartTime (machine k1) (setStatus RUNNING tn)))
    ∧ (∀ p, p ≠ currentThread k_admit → p ≠ 1%nat →
            threads k1 !! p = threads k_admit !! p)
    ∧ tiers k1 = tiers k_admit
    ∧ level k1 = level k_admit.
Proof.
  apply (Run_dispatch_effect k_admit 1%nat false).
  - reflexivity.
  - discriminate.
  - exists (thread_of 130 RUNNING 3 6). split; [reflexivity|].
    split; [eexists; reflexivity|]. reflexivity.
Defined.

Lemma aging_footprint_witness :
  ∃ k', aging k_aging = Ret tt k'
    ∧ (∀ p, p ∉ L1 k_aging ++ L2 k_aging ++ L3 k_aging →
            threads k' !! p = threads k_aging !! p)
    ∧ toBeDestroyed k' = toBeDestroyed k_aging
    ∧ currentThread k' = currentThread k_aging
    ∧ level k' = level k_aging
    ∧ machine k' = machine k_aging.
Proof. apply (aging_footprint k_aging), k_aging_live. Defined.

Lemma aging_keeps_L3_order_witness :
  ∃ k', aging k_aging = Ret tt k' ∧ L3 k' `sublist_of` L3 k_aging.
Proof. apply (aging_keeps_L3_order k_aging), k_aging_live. Defined.

Lemma aging_sorts_witness :
  ∃ k', aging k_aging = Ret tt k'
    ∧ ascending (remaining_of (threads k')) (L1 k')
    ∧ ascending (priority_of (threads k')) (L2 k').
Proof. apply (aging_sorts k_aging); [apply k_aging_live|apply k_aging_nodup]. Defined.

Lemma aging_thresholds_witness :
  ∃ k', aging k_aging = Ret tt k'
    ∧ (∀ p, p ∈ L2 k_aging →
         (p ∈ L1 k' ↔ 100 ≤ priority_of (threads k') p)
         ∧ (p ∈ L2 k' ↔ ¬ 100 ≤ priority_of (threads k') p))
    ∧ (∀ p, p ∈ L3 k_aging →
         (p ∈ L2 k' ↔ 50 ≤ priority_of (threads k') p)
         ∧ (p ∈ L3 k' ↔ ¬ 50 ≤ priority_of (threads k') p)).
Proof.
  apply (aging_thresholds k_aging); [apply k_aging_live|apply k_aging_nodup].
Defined.

Lemma aging_two_passes_witness :
  ∃ k1 k2, aging k_ladder = Ret tt k1 ∧ aging k1 = Ret tt k2
    ∧ 3%nat ∈ L2 k1 ∧ (3%nat ∉ L1 k1) ∧ 3%nat ∈ L1 k2.
Proof.
  apply (aging_two_passes k_ladder 3%nat (thread_of 95 READY 0 9)).
  - repeat constructor; eexists; reflexivity.
  - apply NoDup_ListNoDup. repeat constructor; simpl; tauto.
  - simpl. left.
  - reflexivity.
  - simpl. lia.
  - simpl. lia.
Defined.

Lemma queues_stay_well_formed_witness :
  (∀ t k', t ∉ L1 k_aging ++ L2 k_aging ++ L3 k_aging →
     ReadyToRun t k_aging = Ret tt k' →
     tiers_live k' ∧ NoDup (L1 k' ++ L2 k' ++ L3 k'))
  ∧ (∀ r k', FindNextToRun k_aging = Ret r k' →
     tiers_live k' ∧ NoDup (L1 k' ++ L2 k' ++ L3 k'))
  ∧ (∀ b k', checkPreemptive k_aging = Ret b k' →
     tiers_live k' ∧ NoDup (L1 k' ++ L2 k' ++ L3 k'))
  ∧ (∀ k', aging k_aging = Ret tt k' →
     tiers_live k' ∧ NoDup (L1 k' ++ L2 k' ++ L3 k')).
Proof.
  apply (queues_stay_well_formed k_aging); [apply k_aging_live|apply k_aging_nodup].
Defined.

Lemma idle_scheduler_witness :
  (level k_fresh = IntOff → FindNextToRun k_fresh = Ret None k_fresh)
  ∧ checkPreemptive k_fresh = Ret false k_fresh
  ∧ aging k_fresh = Ret tt k_fresh.
Proof. apply (idle_scheduler k_fresh); reflexivity. Defined.
